(** * Pose landmark processing (src/utils/poseProcessing.ts)

    A shallow embedding of the pose processing engine: the geometry
    kernel, the joint angle calculator, the landmark smoother with its
    module-wide singleton, the visibility gate and the pose comparator.

    Numbers.  A TypeScript [number] is modelled as an exact rational
    ([Q]): every value is finite, there is a single zero, and arithmetic
    does not round.  [NaN] and the infinities are outside the model; the
    only place where the source can divide by zero is written out where
    it occurs ([comparePoseAngles]).  Numeric results are compared with
    [==] ([Qeq]); results of [Math.round] are whole numbers in canonical
    form and are compared with [=].

    The score of [comparePoseAngles] is rounded to a whole number after a
    sum, a division and a product, so it can depend on the rounding of
    each IEEE 754 operation.  That function is therefore embedded a second
    time, over binary64 numbers (module [Double]), and the statements
    about the exact value of its score are made on that embedding.

    [Math.atan2] is implementation-approximated in ECMAScript; it is a
    parameter of the development ([Math_atan2]), constrained only where
    a theorem needs its range. *)

From Stdlib Require Import QArith Qround Qabs Lia Lqa Permutation.
From Stdlib Require Import DecimalString.
From Stdlib Require Import PrimFloat FloatOps SpecFloat.
From Stdlib Require Uint63.
From stdpp Require Import gmap strings list.

#[local] Open Scope Q_scope.
#[local] Open Scope string_scope.

(** ** JavaScript numbers and the [Math] object *)

Definition Qgtb (a b : Q) : bool := negb (Qle_bool a b).
Definition Qgeb (a b : Q) : bool := Qle_bool b a.

Definition Math_abs (a : Q) : Q := Qabs a.
Definition Math_max (a b : Q) : Q := if Qle_bool a b then b else a.
Definition Math_min (a b : Q) : Q := if Qle_bool a b then a else b.

(** [Math.round]: the nearest integer, ties towards +infinity. *)
Definition Math_round (a : Q) : Q := inject_Z (Qfloor (a + (1 # 2))).

(** [Math.PI] is the double nearest to pi, 884279719003555 / 2^48. *)
Definition Math_PI : Q := 884279719003555 # 281474976710656.

(** ** Types (src/types/poseTypes.ts) *)

Module KeypointName.
Definition NOSE := "nose".
Definition LEFT_EYE := "left_eye".
Definition RIGHT_EYE := "right_eye".
Definition LEFT_EAR := "left_ear".
Definition RIGHT_EAR := "right_ear".
Definition LEFT_SHOULDER := "left_shoulder".
Definition RIGHT_SHOULDER := "right_shoulder".
Definition LEFT_ELBOW := "left_elbow".
Definition RIGHT_ELBOW := "right_elbow".
Definition LEFT_WRIST := "left_wrist".
Definition RIGHT_WRIST := "right_wrist".
Definition LEFT_HIP := "left_hip".
Definition RIGHT_HIP := "right_hip".
Definition LEFT_KNEE := "left_knee".
Definition RIGHT_KNEE := "right_knee".
Definition LEFT_ANKLE := "left_ankle".
Definition RIGHT_ANKLE := "right_ankle".

Definition all : list string :=
    [NOSE; LEFT_EYE; RIGHT_EYE; LEFT_EAR; RIGHT_EAR;
     LEFT_SHOULDER; RIGHT_SHOULDER; LEFT_ELBOW; RIGHT_ELBOW;
     LEFT_WRIST; RIGHT_WRIST; LEFT_HIP; RIGHT_HIP;
     LEFT_KNEE; RIGHT_KNEE; LEFT_ANKLE; RIGHT_ANKLE].
End KeypointName.

(** [interface Landmark]; the optional [z] is an [option]. *)
Record Landmark : Type := mkLandmark {
  name : string;
  x : Q;
  y : Q;
  z : option Q;
  confidence : Q;
  isVisible : bool
}.

(** The structural type [{ x: number; y: number }] taken by the geometry
    kernel; a [Landmark] is passed where such a point is expected. *)
Record Point : Type := mkPoint { px : Q; py : Q }.

Definition point_of (l : Landmark) : Point := {| px := x l; py := y l |}.

(** [interface JointAngles]: an object whose fields are all optional.  It
    is kept as the list of its own properties in insertion order, which is
    the order [Object.keys] enumerates.  A property holding [undefined] is
    indistinguishable from a missing one for every reader in this file, so
    only defined properties are listed. *)
Definition JointAngles : Type := list (string * Q).

(** [o[k]] *)
Fixpoint obj_get (o : JointAngles) (k : string) : option Q :=
  match o with
  | [] => None
  | (k', v) :: o' => if String.eqb k' k then Some v else obj_get o' k
  end.

(** [o[k] = v]: an existing property keeps its place, a new one is
    appended. *)
Fixpoint obj_set (o : JointAngles) (k : string) (v : Q) : JointAngles :=
  match o with
  | [] => [(k, v)]
  | (k', v') :: o' =>
      if String.eqb k' k then (k', v) :: o' else (k', v') :: obj_set o' k v
  end.

Definition Object_keys (o : JointAngles) : list string := map fst o.

(** ** Geometric calculations *)

Section Geometry.

Variable Math_atan2 : Q -> Q -> Q.

Definition calculateAngle (p1 p2 p3 : Point) : Q :=
  let radians :=
    Math_atan2 (py p3 - py p2) (px p3 - px p2) -
    Math_atan2 (py p1 - py p2) (px p1 - px p2) in
  let angle := Math_abs ((radians * 180) / Math_PI) in
  let angle := if Qgtb angle 180 then 360 - angle else angle in
  Math_round angle.

(** ** Joint angle calculations *)

(** The helper closure of [calculateJointAngles]:
    [landmarks.find(l => l.name === name && l.isVisible && l.confidence > 0.5)] *)
Definition getLandmark (landmarks : list Landmark) (n : string)
  : option Landmark :=
  List.find
    (fun l => String.eqb (name l) n && isVisible l && Qgtb (confidence l) (1 # 2))
    landmarks.

(** [if (a && b && c) { angles.k = calculateAngle(a, b, c); }] *)
Definition set_angle3 (angles : JointAngles) (k : string)
    (a b c : option Landmark) : JointAngles :=
  match a, b, c with
  | Some a, Some b, Some c =>
      obj_set angles k (calculateAngle (point_of a) (point_of b) (point_of c))
  | _, _, _ => angles
  end.

(** The spine block: the angle at the shoulder midpoint between the point
    straight above it on the top edge of the frame and the hip midpoint. *)
Definition set_spine (angles : JointAngles)
    (leftShoulder rightShoulder leftHip rightHip : option Landmark)
  : JointAngles :=
  match leftShoulder, rightShoulder, leftHip, rightHip with
  | Some leftShoulder, Some rightShoulder, Some leftHip, Some rightHip =>
      let shoulderMid :=
        {| px := (x leftShoulder + x rightShoulder) / 2;
           py := (y leftShoulder + y rightShoulder) / 2 |} in
      let hipMid :=
        {| px := (x leftHip + x rightHip) / 2;
           py := (y leftHip + y rightHip) / 2 |} in
      let verticalRef := {| px := px shoulderMid; py := 0 |} in
      obj_set angles "spine" (calculateAngle verticalRef shoulderMid hipMid)
  | _, _, _, _ => angles
  end.

Definition calculateJointAngles (landmarks : list Landmark) : JointAngles :=
  let angles : JointAngles := [] in
  let getLandmark := getLandmark landmarks in
  (* Left elbow angle *)
  let leftShoulder := getLandmark KeypointName.LEFT_SHOULDER in
  let leftElbow := getLandmark KeypointName.LEFT_ELBOW in
  let leftWrist := getLandmark KeypointName.LEFT_WRIST in
  let angles := set_angle3 angles "leftElbow" leftShoulder leftElbow leftWrist in
  (* Right elbow angle *)
  let rightShoulder := getLandmark KeypointName.RIGHT_SHOULDER in
  let rightElbow := getLandmark KeypointName.RIGHT_ELBOW in
  let rightWrist := getLandmark KeypointName.RIGHT_WRIST in
  let angles := set_angle3 angles "rightElbow" rightShoulder rightElbow rightWrist in
  (* Left shoulder angle *)
  let leftHip := getLandmark KeypointName.LEFT_HIP in
  let angles := set_angle3 angles "leftShoulder" leftElbow leftShoulder leftHip in
  (* Right shoulder angle *)
  let rightHip := getLandmark KeypointName.RIGHT_HIP in
  let angles := set_angle3 angles "rightShoulder" rightElbow rightShoulder rightHip in
  (* Left knee angle *)
  let leftKnee := getLandmark KeypointName.LEFT_KNEE in
  let leftAnkle := getLandmark KeypointName.LEFT_ANKLE in
  let angles := set_angle3 angles "leftKnee" leftHip leftKnee leftAnkle in
  (* Right knee angle *)
  let rightKnee := getLandmark KeypointName.RIGHT_KNEE in
  let rightAnkle := getLandmark KeypointName.RIGHT_ANKLE in
  let angles := set_angle3 angles "rightKnee" rightHip rightKnee rightAnkle in
  (* Left hip angle *)
  let angles := set_angle3 angles "leftHip" leftShoulder leftHip leftKnee in
  (* Right hip angle *)
  let angles := set_angle3 angles "rightHip" rightShoulder rightHip rightKnee in
  (* Spine angle (approximation using shoulders and hips) *)
  set_spine angles leftShoulder rightShoulder leftHip rightHip.

End Geometry.

(** ** Smoothing and filtering *)

(** [class LandmarkSmoother]: the [Map<string, Landmark>] of previously
    emitted landmarks and the clamped factor. *)
Record LandmarkSmoother : Type := mkSmoother {
  previousLandmarks : gmap string Landmark;
  alpha : Q
}.

(** [constructor(alpha = 0.5)] *)
Definition new_LandmarkSmoother (a : Q) : LandmarkSmoother :=
  {| previousLandmarks := ∅; alpha := Math_max 0 (Math_min 1 a) |}.

(** One iteration of the loop of [smooth]: the landmark pushed on
    [smoothed] and the smoother after [previousLandmarks.set]. *)
Definition smooth_step (this : LandmarkSmoother) (current : Landmark)
  : Landmark * LandmarkSmoother :=
  match previousLandmarks this !! name current with
  | None =>
      (* First occurrence, no smoothing *)
      (current,
       {| previousLandmarks := <[name current := current]> (previousLandmarks this);
          alpha := alpha this |})
  | Some previous =>
      (* Apply exponential moving average *)
      let smoothedLandmark :=
        {| name := name current;
           x := alpha this * x current + (1 - alpha this) * x previous;
           y := alpha this * y current + (1 - alpha this) * y previous;
           z := match z current, z previous with
                | Some cz, Some pz => Some (alpha this * cz + (1 - alpha this) * pz)
                | _, _ => z current
                end;
           confidence := confidence current;
           isVisible := isVisible current |} in
      (smoothedLandmark,
       {| previousLandmarks :=
            <[name current := smoothedLandmark]> (previousLandmarks this);
          alpha := alpha this |})
  end.

(** [smooth(currentLandmarks)] returns the smoothed array; the second
    component is the receiver after the call. *)
Fixpoint smooth (this : LandmarkSmoother) (currentLandmarks : list Landmark)
  : list Landmark * LandmarkSmoother :=
  match currentLandmarks with
  | [] => ([], this)
  | current :: rest =>
      let '(l, this1) := smooth_step this current in
      let '(smoothed, this2) := smooth this1 rest in
      (l :: smoothed, this2)
  end.

(** [reset()] *)
Definition reset (this : LandmarkSmoother) : LandmarkSmoother :=
  {| previousLandmarks := ∅; alpha := alpha this |}.

(** The module-level variables [smootherInstance] and [currentAlpha],
    together with the store of the smoother objects allocated so far: a
    reference to a smoother is its index in [heap]. *)
Record ModuleState : Type := mkModule {
  heap : list LandmarkSmoother;
  smootherInstance : option nat;
  currentAlpha : Q
}.

Definition initial_module : ModuleState :=
  {| heap := []; smootherInstance := None; currentAlpha := 1 # 2 |}.

(** [new LandmarkSmoother(alpha)] followed by the two assignments. *)
Definition install_smoother (a : Q) (m : ModuleState) : nat * ModuleState :=
  let r := length (heap m) in
  (r, {| heap := heap m ++ [new_LandmarkSmoother a];
         smootherInstance := Some r;
         currentAlpha := a |}).

Definition getSmoother (a : Q) (m : ModuleState) : nat * ModuleState :=
  match smootherInstance m with
  | None => install_smoother a m
  | Some r =>
      if negb (Qeq_bool (currentAlpha m) a) then install_smoother a m
      else (r, m)
  end.

(** The two fields of [PoseConfig] read by this file. *)
Record PoseConfig : Type := mkConfig {
  enableSmoothing : bool;
  smoothingFactor : Q
}.

(** A method call through a reference: the object is read from the store
    and written back.  A reference handed out by [getSmoother] always
    points into the store; the [None] branch is never taken from a
    well-formed state. *)
Definition applySmoothing (landmarks : list Landmark) (config : PoseConfig)
    (m : ModuleState) : list Landmark * ModuleState :=
  if negb (enableSmoothing config) then (landmarks, m)
  else
    let '(r, m1) := getSmoother (smoothingFactor config) m in
    match heap m1 !! r with
    | Some smoother =>
        let '(smoothed, smoother') := smooth smoother landmarks in
        (smoothed,
         {| heap := <[r := smoother']> (heap m1);
            smootherInstance := smootherInstance m1;
            currentAlpha := currentAlpha m1 |})
    | None => (landmarks, m1)
    end.

(** ** Pose quality analysis *)

Definition criticalPoints : list string :=
  [KeypointName.NOSE;
   KeypointName.LEFT_SHOULDER;
   KeypointName.RIGHT_SHOULDER;
   KeypointName.LEFT_HIP;
   KeypointName.RIGHT_HIP;
   KeypointName.LEFT_KNEE;
   KeypointName.RIGHT_KNEE].

(** [criticalPoints.includes(n)] *)
Definition includes (l : list string) (n : string) : bool :=
  existsb (String.eqb n) l.

Definition number_of_nat (n : nat) : Q := inject_Z (Z.of_nat n).

Definition isPersonFullyVisible (landmarks : list Landmark) : bool :=
  let visibleCriticalPoints :=
    List.filter
      (fun l => includes criticalPoints (name l) && isVisible l
                && Qgtb (confidence l) (1 # 2))
      landmarks in
  Qgeb (number_of_nat (length visibleCriticalPoints))
       (number_of_nat (length criticalPoints) * (7 # 10)).

(** ** Pose comparison *)

(** The partial credit of a joint whose difference exceeds the tolerance.
    With [tolerance] zero the source divides the positive
    [difference - tolerance] by zero: the quotient is [+Infinity],
    [1 - Infinity] is [-Infinity] and [Math.max(0, -Infinity)] is [0]. *)
Definition partialCredit (difference tolerance : Q) : Q :=
  if Qeq_bool tolerance 0 then 0
  else Math_max 0 (1 - (difference - tolerance) / tolerance).

(** The body of the [for (const key of angleKeys)] loop, on the pair
    [(matchCount, totalCount)]. *)
Definition compare_step (detectedAngles referenceAngles : JointAngles)
    (tolerance : Q) (acc : Q * Q) (key : string) : Q * Q :=
  let '(matchCount, totalCount) := acc in
  match obj_get referenceAngles key with
  | None => (matchCount, totalCount)
  | Some refAngle =>
      let totalCount := totalCount + 1 in
      match obj_get detectedAngles key with
      | None => (matchCount, totalCount)
      | Some detAngle =>
          let difference := Math_abs (refAngle - detAngle) in
          if Qle_bool difference tolerance then (matchCount + 1, totalCount)
          else (matchCount + partialCredit difference tolerance, totalCount)
      end
  end.

Definition comparePoseAngles (detectedAngles referenceAngles : JointAngles)
    (tolerance : Q) : Q :=
  let angleKeys := Object_keys referenceAngles in
  let '(matchCount, totalCount) :=
    fold_left (compare_step detectedAngles referenceAngles tolerance)
              angleKeys (0, 0) in
  if Qgtb totalCount 0 then Math_round ((matchCount / totalCount) * 100)
  else 0.

(** ** Pose comparison over IEEE 754 doubles

    [comparePoseAngles] once more, with [number] as the binary64 numbers
    of the source: every operation rounds to nearest (ties to even), a
    division by zero gives an infinity, and [NaN] compares false. *)

Module Double.
#[local] Open Scope float_scope.

(** [interface JointAngles], as the list of own properties in insertion
    order. *)
Definition JointAngles : Type := list (string * float).

(** [o[k]] *)
Fixpoint obj_get (o : JointAngles) (k : string) : option float :=
  match o with
  | [] => None
  | (k', v) :: o' => if String.eqb k' k then Some v else obj_get o' k
  end.

Definition Object_keys (o : JointAngles) : list string := map fst o.

(** [Math.abs] *)
Definition Math_abs (a : float) : float := abs a.

(** [Math.max] of two numbers: [NaN] if either is [NaN], and [+0] counts
    as larger than [-0]. *)
Definition Math_max (a b : float) : float :=
  if is_nan a || is_nan b then nan
  else if a <? b then b
  else if b <? a then a
  else if is_zero a && get_sign a then b
  else a.

(** [Math.round]: [NaN], the infinities, the zeros and the whole numbers
    are returned as they are (a double with a non-negative exponent is
    whole); any other double [m * 2^e] goes to [floor (m * 2^e + 1/2)],
    computed over the integers, and to [-0] when that is zero and the
    argument negative.  Below [2^52] in magnitude the result is a double. *)
Definition Math_round (a : float) : float :=
  match Prim2SF a with
  | S754_finite s m e =>
      if (0 <=? e)%Z then a
      else
        let n := ((2 * (if s then Z.neg m else Z.pos m) + 2 ^ (- e))
                  / 2 ^ (1 - e))%Z in
        if (n =? 0)%Z then (if s then neg_zero else zero)
        else if (n <? 0)%Z then - of_uint63 (Uint63.of_Z (- n))
        else of_uint63 (Uint63.of_Z n)
  | _ => a
  end.

(** The body of the [for (const key of angleKeys)] loop, on the pair
    [(matchCount, totalCount)]. *)
Definition compare_step (detectedAngles referenceAngles : JointAngles)
    (tolerance : float) (acc : float * float) (key : string) : float * float :=
  let '(matchCount, totalCount) := acc in
  match obj_get referenceAngles key with
  | None => (matchCount, totalCount)
  | Some refAngle =>
      let totalCount := totalCount + 1 in
      match obj_get detectedAngles key with
      | None => (matchCount, totalCount)
      | Some detAngle =>
          let difference := Math_abs (refAngle - detAngle) in
          if difference <=? tolerance then (matchCount + 1, totalCount)
          else
            (* Partial credit for close matches *)
            let partialCredit :=
              Math_max 0 (1 - (difference - tolerance) / tolerance) in
            (matchCount + partialCredit, totalCount)
      end
  end.

Definition comparePoseAngles (detectedAngles referenceAngles : JointAngles)
    (tolerance : float) : float :=
  let angleKeys := Object_keys referenceAngles in
  let '(matchCount, totalCount) :=
    fold_left (compare_step detectedAngles referenceAngles tolerance)
              angleKeys (0, 0) in
  if 0 <? totalCount then Math_round ((matchCount / totalCount) * 100)
  else 0.

(** *** The comparator as the specification words it, in doubles *)

(** The credit of a reference joint [r] detected as [d]; the distance of
    the two angles is taken as the source takes it ([|r - d|] and
    [|d - r|] are the same double). *)
Definition credit (t d r : float) : float :=
  let diff := Math_abs (r - d) in
  if diff <=? t then 1 else Math_max 0 (1 - (diff - t) / t).

(** The credits of the reference joints in key order; a joint absent from
    [detected] has credit zero and adds nothing. *)
Definition credits (detected reference : JointAngles) (t : float) : list float :=
  flat_map (fun k => match obj_get reference k, obj_get detected k with
                     | Some r, Some d => [credit t d r]
                     | _, _ => []
                     end)
           (Object_keys reference).

(** The credits summed from the left, starting at zero. *)
Definition sumOfCredits (detected reference : JointAngles) (t : float) : float :=
  fold_left add (credits detected reference t) 0.

(** The number of reference joints, counted up from zero (exact up to
    [2^53] joints). *)
Definition countOfReferenceJoints (reference : JointAngles) : float :=
  Nat.iter (length (Object_keys reference)) (fun c => c + 1) 0.

(** The rounded percentage, the quotient taken before the product. *)
Definition spec_score (detected reference : JointAngles) (t : float) : float :=
  let count := countOfReferenceJoints reference in
  if 0 <? count
  then Math_round (sumOfCredits detected reference t / count * 100)
  else 0.

(** The rational a finite double stands for (zero for the others). *)
Definition exact (a : float) : Q :=
  match Prim2SF a with
  | S754_finite s m e => inject_Z (if s then Z.neg m else Z.pos m) * Qpower 2 e
  | _ => 0%Q
  end.

End Double.

(** ** The remaining functions of the pose processing engine *)

(** [Math.pow] with a whole exponent; the source only squares. *)
Definition Math_pow (base : Q) (exponent : Z) : Q := Qpower base exponent.

(** [Math.floor] *)
Definition Math_floor (a : Q) : Q := inject_Z (Qfloor a).

Section Distance.

(** [Math.sqrt] is irrational in general and is a parameter, like
    [Math.atan2]. *)
Variable Math_sqrt : Q -> Q.

Definition calculateDistance (p1 p2 : Point) : Q :=
  Math_sqrt (Math_pow (px p2 - px p1) 2 + Math_pow (py p2 - py p1) 2).

End Distance.

(** A zero frame dimension makes the source return an infinity or [NaN];
    the statements about this function assume non-zero dimensions. *)
Definition normalizeCoordinates (x y frameWidth frameHeight : Q) : Point :=
  {| px := x / frameWidth; py := y / frameHeight |}.

Definition calculatePoseConfidence (landmarks : list Landmark) : Q :=
  match landmarks with
  | [] => 0
  | _ :: _ =>
      let visibleLandmarks := List.filter isVisible landmarks in
      match visibleLandmarks with
      | [] => 0
      | _ :: _ =>
          let totalConfidence :=
            fold_left (fun sum l => sum + confidence l) visibleLandmarks 0 in
          totalConfidence / number_of_nat (length visibleLandmarks)
      end
  end.

(** The parameter type ['head' | 'torso' | 'arms' | 'legs']. *)
Module BodyPart.
Inductive t : Type := head | torso | arms | legs.
End BodyPart.

(** The record [bodyPartKeypoints], read at a key of the parameter type:
    the [|| []] fallback of the source is never taken. *)
Definition bodyPartKeypoints (bodyPart : BodyPart.t) : list string :=
  match bodyPart with
  | BodyPart.head =>
      [KeypointName.NOSE; KeypointName.LEFT_EYE; KeypointName.RIGHT_EYE]
  | BodyPart.torso =>
      [KeypointName.LEFT_SHOULDER; KeypointName.RIGHT_SHOULDER;
       KeypointName.LEFT_HIP; KeypointName.RIGHT_HIP]
  | BodyPart.arms =>
      [KeypointName.LEFT_ELBOW; KeypointName.RIGHT_ELBOW;
       KeypointName.LEFT_WRIST; KeypointName.RIGHT_WRIST]
  | BodyPart.legs =>
      [KeypointName.LEFT_KNEE; KeypointName.RIGHT_KNEE;
       KeypointName.LEFT_ANKLE; KeypointName.RIGHT_ANKLE]
  end.

Definition isBodyPartVisible (landmarks : list Landmark)
    (bodyPart : BodyPart.t) : bool :=
  let relevantPoints := bodyPartKeypoints bodyPart in
  let visiblePoints :=
    List.filter
      (fun l => includes relevantPoints (name l) && isVisible l
                && Qgtb (confidence l) (1 # 2))
      landmarks in
  Qgeb (number_of_nat (length visiblePoints))
       (number_of_nat (length relevantPoints) * (1 # 2)).

(** *** Feedback strings

    Strings are byte strings.  The joint keys are identifiers, so the
    white space [trim] removes is the one-byte white space; the multi-byte
    white space of ECMAScript is outside the model. *)

Definition is_capital (c : Ascii.ascii) : bool :=
  (65 <=? Ascii.nat_of_ascii c)%nat && (Ascii.nat_of_ascii c <=? 90)%nat.

(** [key.replace(/([A-Z])/g, ' $1')] *)
Fixpoint space_capitals (key : string) : string :=
  match key with
  | EmptyString => EmptyString
  | String c rest =>
      if is_capital c then String Ascii.Space (String c (space_capitals rest))
      else String c (space_capitals rest)
  end.

Definition is_white_space (c : Ascii.ascii) : bool :=
  ((9 <=? Ascii.nat_of_ascii c)%nat && (Ascii.nat_of_ascii c <=? 13)%nat)
  || (Ascii.nat_of_ascii c =? 32)%nat.

Fixpoint trim_start (s : list Ascii.ascii) : list Ascii.ascii :=
  match s with
  | [] => []
  | c :: rest => if is_white_space c then trim_start rest else s
  end.

(** [s.trim()] *)
Definition String_trim (s : string) : string :=
  String.string_of_list_ascii
    (rev (trim_start (rev (trim_start (String.list_ascii_of_string s))))).

(** The conversion of a number inside a template literal, for the whole
    numbers it is applied to here: plain decimal digits (the source
    switches to exponent notation from 10^21 on, far beyond any rounded
    angle difference). *)
Definition Number_toString (n : Q) : string :=
  let i := Qfloor n in
  if (i <? 0)%Z
  then String.append "-" (NilZero.string_of_uint (N.to_uint (Z.to_N (- i))))
  else NilZero.string_of_uint (N.to_uint (Z.to_N i)).

(** The body of the loop of [generatePoseFeedback] on the array
    [feedback]. *)
Definition feedback_step (detectedAngles referenceAngles : JointAngles)
    (tolerance : Q) (feedback : list string) (key : string) : list string :=
  match obj_get referenceAngles key, obj_get detectedAngles key with
  | Some refAngle, Some detAngle =>
      let difference := detAngle - refAngle in
      if Qgtb (Math_abs difference) tolerance then
        let jointName := String_trim (space_capitals key) in
        if Qgtb difference 0 then
          feedback ++
            [String.append jointName
               (String.append ": Reduce angle by ~"
                  (String.append (Number_toString (Math_round (Math_abs difference)))
                                 "°"))]
        else
          feedback ++
            [String.append jointName
               (String.append ": Increase angle by ~"
                  (String.append (Number_toString (Math_round (Math_abs difference)))
                                 "°"))]
      else feedback
  | _, _ => feedback
  end.

Definition generatePoseFeedback (detectedAngles referenceAngles : JointAngles)
    (tolerance : Q) : list string :=
  let angleKeys := Object_keys referenceAngles in
  fold_left (feedback_step detectedAngles referenceAngles tolerance) angleKeys [].

(** *** Data export *)

(** [interface PoseData] *)
Record PoseData : Type := mkPoseData {
  pd_landmarks : list Landmark;
  pd_angles : JointAngles;
  pd_confidence : Q;
  pd_timestamp : Q;
  pd_frameNumber : Q;
  pd_isPersonDetected : bool
}.

(** The object literal each landmark is mapped to. *)
Record ExportedLandmark : Type := mkExportedLandmark {
  ex_name : string;
  ex_x : Q;
  ex_y : Q;
  ex_z : option Q;
  ex_confidence : Q
}.

(** The object literal returned by [preparePoseDataForExport]; [metadata]
    is flattened into its two fields. *)
Record ExportedPose : Type := mkExportedPose {
  sessionId : string;
  ex_timestamp : Q;
  ex_landmarks : list ExportedLandmark;
  ex_angles : JointAngles;
  metadata_frameNumber : Q;
  metadata_confidence : Q
}.

Definition preparePoseDataForExport (poseData : PoseData) (sessionId : string)
  : ExportedPose :=
  {| sessionId := sessionId;
     ex_timestamp := pd_timestamp poseData;
     ex_landmarks :=
       map (fun l => {| ex_name := name l; ex_x := x l; ex_y := y l;
                        ex_z := z l; ex_confidence := confidence l |})
           (pd_landmarks poseData);
     ex_angles := pd_angles poseData;
     metadata_frameNumber := pd_frameNumber poseData;
     metadata_confidence := pd_confidence poseData |}.

Definition batchExportPoseData (poseDataArray : list PoseData)
    (sessionId : string) : list ExportedPose :=
  map (fun pd => preparePoseDataForExport pd sessionId) poseDataArray.

(** ** The caller in components/PoseCamera.tsx *)

Section FramePipeline.

Variable Math_atan2 : Q -> Q -> Q.

(** [createPoseData(landmarks, config)].  The values returned by
    [Date.now()] and [Math.random()] are inputs; the module state of the
    smoother is threaded through. *)
Definition createPoseData (Date_now Math_random : Q)
    (landmarks : list Landmark) (config : PoseConfig) (m : ModuleState)
  : PoseData * ModuleState :=
  let '(smoothedLandmarks, m') :=
    if enableSmoothing config then applySmoothing landmarks config m
    else (landmarks, m) in
  let angles := calculateJointAngles Math_atan2 smoothedLandmarks in
  let confidence := calculatePoseConfidence smoothedLandmarks in
  let isPersonDetected := isPersonFullyVisible smoothedLandmarks in
  ({| pd_landmarks := smoothedLandmarks;
      pd_angles := angles;
      pd_confidence := confidence;
      pd_timestamp := Date_now;
      pd_frameNumber := Math_floor (Math_random * 1000);
      pd_isPersonDetected := isPersonDetected |},
   m').

End FramePipeline.

(** ** Specification-level notions used by the statements *)

(** A landmark the angle calculator accepts: visible and above the 0.5
    confidence floor. *)
Definition usable (l : Landmark) : bool :=
  isVisible l && Qgtb (confidence l) (1 # 2).

(** Keypoint [n] is present, visible and confident in the frame. *)
Definition qualifies (landmarks : list Landmark) (n : string) : bool :=
  existsb (fun l => String.eqb (name l) n && usable l) landmarks.

(** The keypoints each computed joint is defined by, in the order the
    source passes them to [calculateAngle]; the spine uses both shoulders
    and both hips. *)
Definition joint_table : list (string * list string) :=
  [("leftElbow", [KeypointName.LEFT_SHOULDER; KeypointName.LEFT_ELBOW; KeypointName.LEFT_WRIST]);
   ("rightElbow", [KeypointName.RIGHT_SHOULDER; KeypointName.RIGHT_ELBOW; KeypointName.RIGHT_WRIST]);
   ("leftShoulder", [KeypointName.LEFT_ELBOW; KeypointName.LEFT_SHOULDER; KeypointName.LEFT_HIP]);
   ("rightShoulder", [KeypointName.RIGHT_ELBOW; KeypointName.RIGHT_SHOULDER; KeypointName.RIGHT_HIP]);
   ("leftKnee", [KeypointName.LEFT_HIP; KeypointName.LEFT_KNEE; KeypointName.LEFT_ANKLE]);
   ("rightKnee", [KeypointName.RIGHT_HIP; KeypointName.RIGHT_KNEE; KeypointName.RIGHT_ANKLE]);
   ("leftHip", [KeypointName.LEFT_SHOULDER; KeypointName.LEFT_HIP; KeypointName.LEFT_KNEE]);
   ("rightHip", [KeypointName.RIGHT_SHOULDER; KeypointName.RIGHT_HIP; KeypointName.RIGHT_KNEE]);
   ("spine", [KeypointName.LEFT_SHOULDER; KeypointName.RIGHT_SHOULDER;
              KeypointName.LEFT_HIP; KeypointName.RIGHT_HIP])].

Definition defining_landmarks (joint : string) : list string :=
  match List.find (fun e => String.eqb (fst e) joint) joint_table with
  | Some e => snd e
  | None => []
  end.

(** The joints [calculateJointAngles] has a block for. *)
Definition computed_joints : list string := map fst joint_table.

(** No landmark of the frame named [n] is accepted: the keypoint is
    missing, or each landmark carrying its name is marked not visible or
    has confidence at or below 0.5. *)
Definition unusable_in (landmarks : list Landmark) (n : string) : Prop :=
  forall l, In l landmarks -> name l = n ->
            isVisible l = false \/ confidence l <= 1 # 2.

(** The 14 joints of the data model. *)
Definition fourteen_joints : list string :=
  ["leftElbow"; "rightElbow"; "leftShoulder"; "rightShoulder";
   "leftWrist"; "rightWrist"; "leftHip"; "rightHip";
   "leftKnee"; "rightKnee"; "leftAnkle"; "rightAnkle"; "neck"; "spine"].

(** The value [calculateAngle] holds in [angle] just before [Math.round]. *)
Definition unroundedAngle (Math_atan2 : Q -> Q -> Q) (p1 p2 p3 : Point) : Q :=
  let radians :=
    Math_atan2 (py p3 - py p2) (px p3 - px p2) -
    Math_atan2 (py p1 - py p2) (px p1 - px p2) in
  let angle := Math_abs ((radians * 180) / Math_PI) in
  if Qgtb angle 180 then 360 - angle else angle.

(** [w] is a value returned by [calculateAngle]. *)
Definition is_angle (Math_atan2 : Q -> Q -> Q) (w : Q) : Prop :=
  exists p1 p2 p3, w = calculateAngle Math_atan2 p1 p2 p3.

(** The comparator as the specification words it: the credit of one
    reference joint, and the rounded percentage of the summed credits. *)
Definition spec_credit (t : Q) (detected : option Q) (reference : Q) : Q :=
  match detected with
  | None => 0
  | Some d =>
      let diff := Qabs (d - reference) in
      if Qle_bool diff t then 1
      else Math_max 0 (1 - (diff - t) / t)
  end.

Definition Qsum (l : list Q) : Q := fold_right Qplus 0 l.

(** The credit of the reference joint [k]. *)
Definition jointCredit (detected reference : JointAngles) (t : Q) (k : string) : Q :=
  match obj_get reference k with
  | Some r => spec_credit t (obj_get detected k) r
  | None => 0
  end.

Definition sumOfCredits (detected reference : JointAngles) (t : Q) : Q :=
  Qsum (map (jointCredit detected reference t) (Object_keys reference)).

Definition countOfReferenceJoints (reference : JointAngles) : Q :=
  number_of_nat (length (Object_keys reference)).

Definition spec_score (detected reference : JointAngles) (t : Q) : Q :=
  match reference with
  | [] => 0
  | _ :: _ =>
      Math_round (100 * sumOfCredits detected reference t
                  / countOfReferenceJoints reference)
  end.

(** Well-formed module states: the installed reference points into the
    store. *)
Definition module_wf (m : ModuleState) : Prop :=
  match smootherInstance m with
  | Some r => (r < length (heap m))%nat
  | None => True
  end.

(** ** Sample data *)

(** A coarse instance of [Math_atan2] for running the definitions: exact
    on the four axes (to the precision of [Math_PI]) and the diagonal of
    the quadrant elsewhere. *)
Definition atan2_coarse (y x : Q) : Q :=
  match (y ?= 0)%Q, (x ?= 0)%Q with
  | Eq, Lt => Math_PI
  | Eq, _ => 0
  | Gt, Gt => Math_PI / 4
  | Gt, Eq => Math_PI / 2
  | Gt, Lt => 3 * Math_PI / 4
  | Lt, Gt => - (Math_PI / 4)
  | Lt, Eq => - (Math_PI / 2)
  | Lt, Lt => - (3 * Math_PI / 4)
  end.

Definition keypoint (n : string) (cx cy : Z) (c : Q) (v : bool) : Landmark :=
  {| name := n; x := cx # 100; y := cy # 100; z := Some (1 # 2);
     confidence := c; isVisible := v |}.

(** A standing person facing the camera, leaning slightly: all 17
    keypoints, visible, with confidence 0.9, no two on the same spot and
    no joint triple on a line. *)
Definition standing_frame : list Landmark :=
  [keypoint KeypointName.NOSE 50 10 (9 # 10) true;
   keypoint KeypointName.LEFT_EYE 52 8 (9 # 10) true;
   keypoint KeypointName.RIGHT_EYE 48 8 (9 # 10) true;
   keypoint KeypointName.LEFT_EAR 54 9 (9 # 10) true;
   keypoint KeypointName.RIGHT_EAR 46 9 (9 # 10) true;
   keypoint KeypointName.LEFT_SHOULDER 60 25 (9 # 10) true;
   keypoint KeypointName.RIGHT_SHOULDER 40 25 (9 # 10) true;
   keypoint KeypointName.LEFT_ELBOW 66 40 (9 # 10) true;
   keypoint KeypointName.RIGHT_ELBOW 34 40 (9 # 10) true;
   keypoint KeypointName.LEFT_WRIST 64 55 (9 # 10) true;
   keypoint KeypointName.RIGHT_WRIST 36 55 (9 # 10) true;
   keypoint KeypointName.LEFT_HIP 57 55 (9 # 10) true;
   keypoint KeypointName.RIGHT_HIP 45 55 (9 # 10) true;
   keypoint KeypointName.LEFT_KNEE 59 75 (9 # 10) true;
   keypoint KeypointName.RIGHT_KNEE 41 75 (9 # 10) true;
   keypoint KeypointName.LEFT_ANKLE 57 95 (9 # 10) true;
   keypoint KeypointName.RIGHT_ANKLE 43 95 (9 # 10) true].

(** The standing frame with the left wrist detected at confidence 0.4. *)
Definition weak_wrist_frame : list Landmark :=
  map (fun l => if String.eqb (name l) KeypointName.LEFT_WRIST
                then keypoint KeypointName.LEFT_WRIST 64 55 (2 # 5) true
                else l)
      standing_frame.

(** Five accepted critical points, two knees missing. *)
Definition five_of_seven_frame : list Landmark :=
  [keypoint KeypointName.NOSE 50 10 (9 # 10) true;
   keypoint KeypointName.LEFT_SHOULDER 60 25 (9 # 10) true;
   keypoint KeypointName.RIGHT_SHOULDER 40 25 (9 # 10) true;
   keypoint KeypointName.LEFT_HIP 56 55 (9 # 10) true;
   keypoint KeypointName.RIGHT_HIP 44 55 (9 # 10) true;
   keypoint KeypointName.LEFT_ELBOW 66 40 (9 # 10) true].

(** The previous smoothed value of the left wrist in a running session,
    and the next raw frame holding only that keypoint. *)
Definition running_smoother : LandmarkSmoother :=
  {| previousLandmarks :=
       {[ KeypointName.LEFT_WRIST := keypoint KeypointName.LEFT_WRIST 60 50 (8 # 10) true ]};
     alpha := 3 # 10 |}.

Definition wrist_frame : list Landmark :=
  [keypoint KeypointName.LEFT_WRIST 64 55 (9 # 10) false].

(** A module state in which a smoother for factor 0.3 is installed and has
    accumulated the left wrist. *)
Definition running_module : ModuleState :=
  {| heap := [running_smoother]; smootherInstance := Some 0%nat;
     currentAlpha := 3 # 10 |}.

(** ** Notions and sample data for the further properties *)

(** What the quality assessor and the key set of the angle calculator read
    of a landmark. *)
Definition observed (l : Landmark) : string * bool * Q :=
  (name l, isVisible l, confidence l).

(** The frame fed [n] times in a row: the output of the last call (the
    frame itself for [n = 0]) and the smoother after it. *)
Fixpoint smooth_repeat (n : nat) (this : LandmarkSmoother)
    (frame : list Landmark) : list Landmark * LandmarkSmoother :=
  match n with
  | O => (frame, this)
  | S n' => smooth (snd (smooth_repeat n' this frame)) frame
  end.

(** The installed smoother exists and carries the clamped
    [currentAlpha]. *)
Definition module_coherent (m : ModuleState) : Prop :=
  match smootherInstance m with
  | Some r =>
      exists s, heap m !! r = Some s /\
                alpha s = Math_max 0 (Math_min 1 (currentAlpha m))
  | None => True
  end.

(** A detected reference joint lies within the tolerance. *)
Definition within_tolerance (detected reference : JointAngles) (t : Q)
    (k : string) : Prop :=
  forall r d, obj_get reference k = Some r -> obj_get detected k = Some d ->
              Qabs (d - r) <= t.

(** The string without its space characters. *)
Fixpoint remove_spaces (s : string) : string :=
  match s with
  | EmptyString => EmptyString
  | String c rest =>
      if Ascii.eqb c Ascii.Space then remove_spaces rest
      else String c (remove_spaces rest)
  end.

(** No character of the string is white space. *)
Fixpoint no_white_space (s : string) : bool :=
  match s with
  | EmptyString => true
  | String c rest => negb (is_white_space c) && no_white_space rest
  end.

(** A coarse instance of [Math_sqrt]: the integer square root of the
    floor. *)
Definition sqrt_coarse (a : Q) : Q := inject_Z (Z.sqrt (Qfloor a)).

(** Two sightings of the nose in one array. *)
Definition double_nose_frame : list Landmark :=
  [keypoint KeypointName.NOSE 50 10 (9 # 10) true;
   keypoint KeypointName.NOSE 54 12 (9 # 10) true].

(** * Properties *)

(** ** Numbers *)

Lemma Qgtb_true (a b : Q) : Qgtb a b = true <-> b < a.
Proof.
  unfold Qgtb. rewrite negb_true_iff, <- not_true_iff_false, Qle_bool_iff.
  split; [apply Qnot_le_lt | apply Qlt_not_le].
Qed.

Lemma Qgtb_false (a b : Q) : Qgtb a b = false <-> a <= b.
Proof. unfold Qgtb. rewrite negb_false_iff. apply Qle_bool_iff. Qed.

Lemma div_Math_PI (q : Q) :
  q / Math_PI == q * (281474976710656 # 884279719003555).
Proof. reflexivity. Qed.

Lemma Math_round_comp (a b : Q) : a == b -> Math_round a = Math_round b.
Proof.
  intros E. unfold Math_round. f_equal. apply Qfloor_comp. now rewrite E.
Qed.

Lemma Math_round_Z (n : Z) : Math_round (inject_Z n) = inject_Z n.
Proof.
  unfold Math_round. f_equal. apply Z.le_antisymm.
  - assert (H := Qfloor_le (inject_Z n + (1 # 2))).
    assert (L : inject_Z (Qfloor (inject_Z n + (1 # 2))) < inject_Z (n + 1)).
    { rewrite inject_Z_plus. change (inject_Z 1) with 1. lra. }
    rewrite <- Zlt_Qlt in L. lia.
  - rewrite <- (Qfloor_Z n) at 1. apply Qfloor_resp_le. lra.
Qed.

(** [Math.round] moves its argument by at most one half. *)
Lemma Math_round_nearest (a : Q) :
  a - (1 # 2) < Math_round a /\ Math_round a <= a + (1 # 2).
Proof.
  unfold Math_round.
  assert (H1 := Qfloor_le (a + (1 # 2))).
  assert (H2 := Qlt_floor (a + (1 # 2))).
  rewrite inject_Z_plus in H2. change (inject_Z 1) with 1 in H2.
  split; lra.
Qed.

Lemma Math_round_range (a : Q) (lo hi : Z) :
  inject_Z lo <= a -> a <= inject_Z hi ->
  inject_Z lo <= Math_round a /\ Math_round a <= inject_Z hi.
Proof.
  intros Hlo Hhi. unfold Math_round. rewrite <- !Zle_Qle. split.
  - rewrite <- (Qfloor_Z lo). apply Qfloor_resp_le. lra.
  - assert (H := Qfloor_le (a + (1 # 2))).
    assert (L : inject_Z (Qfloor (a + (1 # 2))) < inject_Z (hi + 1)).
    { rewrite inject_Z_plus. change (inject_Z 1) with 1. lra. }
    rewrite <- Zlt_Qlt in L. lia.
Qed.

(** ** Geometry kernel *)

Section GeometryFacts.

Variable Math_atan2 : Q -> Q -> Q.

Lemma calculateAngle_unrounded (p1 p2 p3 : Point) :
  calculateAngle Math_atan2 p1 p2 p3
  = Math_round (unroundedAngle Math_atan2 p1 p2 p3).
Proof. reflexivity. Qed.

Lemma fold_angle_comp (a b : Q) :
  a == b ->
  (if Qgtb a 180 then 360 - a else a) == (if Qgtb b 180 then 360 - b else b).
Proof.
  intros E. unfold Qgtb. rewrite (Qleb_comp a b E 180 180 (Qeq_refl _)).
  destruct (Qle_bool b 180); simpl; lra.
Qed.

Lemma unroundedAngle_sym (a b c : Point) :
  unroundedAngle Math_atan2 a b c == unroundedAngle Math_atan2 c b a.
Proof.
  unfold unroundedAngle, Math_abs. cbv zeta. apply fold_angle_comp.
  set (A := Math_atan2 (py c - py b) (px c - px b)).
  set (B := Math_atan2 (py a - py b) (px a - px b)).
  rewrite <- (Qabs_opp ((B - A) * 180 / Math_PI)).
  apply Qabs_wd. rewrite !div_Math_PI. lra.
Qed.

Lemma unroundedAngle_range (a b c : Point) :
  (forall v u, - Math_PI <= Math_atan2 v u /\ Math_atan2 v u <= Math_PI) ->
  0 <= unroundedAngle Math_atan2 a b c /\ unroundedAngle Math_atan2 a b c <= 180.
Proof.
  intros R. unfold unroundedAngle, Math_abs. cbv zeta.
  destruct (R (py c - py b) (px c - px b)) as [A1 A2].
  destruct (R (py a - py b) (px a - px b)) as [B1 B2].
  set (A := Math_atan2 (py c - py b) (px c - px b)) in *.
  set (B := Math_atan2 (py a - py b) (px a - px b)) in *.
  assert (H : Qabs ((A - B) * 180 / Math_PI) <= 360).
  { apply Qabs_Qle_condition. rewrite div_Math_PI.
    unfold Math_PI in *. split; lra. }
  assert (N := Qabs_nonneg ((A - B) * 180 / Math_PI)).
  destruct (Qgtb (Qabs ((A - B) * 180 / Math_PI)) 180) eqn:G.
  - apply Qgtb_true in G. split; lra.
  - apply Qgtb_false in G. split; lra.
Qed.

(** C8: the angle at the vertex lies in [0, 180] whenever [Math.atan2]
    stays within [-Math.PI, Math.PI], and it is the same when the two
    outer points are exchanged. *)
Theorem calculateAngle_range_sym (a b c : Point) :
  (forall v u, - Math_PI <= Math_atan2 v u /\ Math_atan2 v u <= Math_PI) ->
  (0 <= calculateAngle Math_atan2 a b c /\
   calculateAngle Math_atan2 a b c <= 180) /\
  calculateAngle Math_atan2 a b c = calculateAngle Math_atan2 c b a.
Proof.
  intros R. rewrite !calculateAngle_unrounded. split.
  - destruct (unroundedAngle_range a b c R) as [L U].
    apply (Math_round_range _ 0 180); assumption.
  - apply Math_round_comp, unroundedAngle_sym.
Qed.

End GeometryFacts.

Lemma atan2_coarse_range (v u : Q) :
  - Math_PI <= atan2_coarse v u /\ atan2_coarse v u <= Math_PI.
Proof.
  unfold atan2_coarse.
  destruct (v ?= 0)%Q, (u ?= 0)%Q; unfold Math_PI; split; try lra;
    unfold Qdiv; (discriminate || (vm_compute; discriminate)).
Qed.

(** A reflex difference of 270 degrees is folded back to 90. *)
Example calculateAngle_folds :
  unroundedAngle atan2_coarse (mkPoint (-1) (-1)) (mkPoint 0 0) (mkPoint (-1) 1) == 90 /\
  calculateAngle atan2_coarse (mkPoint (-1) (-1)) (mkPoint 0 0) (mkPoint (-1) 1) = 90.
Proof. split; vm_compute; reflexivity. Qed.

(** The right angle at the origin between the two axes. *)
Lemma calculateAngle_range_sym_witness :
  (0 <= calculateAngle atan2_coarse (mkPoint 1 0) (mkPoint 0 0) (mkPoint 0 1) /\
   calculateAngle atan2_coarse (mkPoint 1 0) (mkPoint 0 0) (mkPoint 0 1) <= 180) /\
  calculateAngle atan2_coarse (mkPoint 1 0) (mkPoint 0 0) (mkPoint 0 1)
  = calculateAngle atan2_coarse (mkPoint 0 1) (mkPoint 0 0) (mkPoint 1 0).
Proof.
  apply (calculateAngle_range_sym atan2_coarse (mkPoint 1 0) (mkPoint 0 0) (mkPoint 0 1)).
  exact atan2_coarse_range.
Defined.

(** ** Joint angle calculator *)

Lemma obj_get_set (o : JointAngles) (k k' : string) (v : Q) :
  obj_get (obj_set o k v) k' = if String.eqb k k' then Some v else obj_get o k'.
Proof.
  induction o as [|[k0 v0] o IH]; simpl.
  - reflexivity.
  - destruct (String.eqb k0 k) eqn:E0; simpl.
    + apply String.eqb_eq in E0. subst k0.
      destruct (String.eqb k k'); reflexivity.
    + rewrite IH. destruct (String.eqb k0 k') eqn:E1; [|reflexivity].
      apply String.eqb_eq in E1. subst k0. now rewrite String.eqb_sym, E0.
Qed.

Lemma obj_get_set_inv (o : JointAngles) (k k' : string) (v w : Q) :
  obj_get (obj_set o k v) k' = Some w ->
  (k' = k /\ w = v) \/ obj_get o k' = Some w.
Proof.
  rewrite obj_get_set. destruct (String.eqb k k') eqn:E.
  - apply String.eqb_eq in E. intros [= <-]. left. split; congruence.
  - now right.
Qed.

Lemma getLandmark_unusable (landmarks : list Landmark) (n : string) :
  unusable_in landmarks n -> getLandmark landmarks n = None.
Proof.
  intros U. unfold getLandmark.
  destruct (List.find _ landmarks) as [l|] eqn:F; [|reflexivity].
  apply find_some in F as [Hin Hl].
  apply andb_prop in Hl as [Hl Hc]. apply andb_prop in Hl as [Hn Hv].
  apply String.eqb_eq in Hn. apply Qgtb_true in Hc.
  destruct (U l Hin Hn) as [V|C].
  - congruence.
  - exfalso. lra.
Qed.

Section CalculatorFacts.

Variable Math_atan2 : Q -> Q -> Q.

Lemma get_set_angle3_inv (o : JointAngles) (k k' : string)
    (a b c : option Landmark) (w : Q) :
  obj_get (set_angle3 Math_atan2 o k a b c) k' = Some w ->
  (k' = k /\ is_Some a /\ is_Some b /\ is_Some c /\ is_angle Math_atan2 w)
  \/ obj_get o k' = Some w.
Proof.
  unfold set_angle3. destruct a as [a|], b as [b|], c as [c|]; auto.
  intros H. apply obj_get_set_inv in H as [[-> ->]|H]; [left|now right].
  repeat split; eauto. now exists (point_of a), (point_of b), (point_of c).
Qed.

Lemma get_set_spine_inv (o : JointAngles) (k' : string)
    (a b c d : option Landmark) (w : Q) :
  obj_get (set_spine Math_atan2 o a b c d) k' = Some w ->
  (k' = "spine" /\ is_Some a /\ is_Some b /\ is_Some c /\ is_Some d
   /\ is_angle Math_atan2 w)
  \/ obj_get o k' = Some w.
Proof.
  unfold set_spine. destruct a as [a|], b as [b|], c as [c|], d as [d|]; auto.
  intros H. apply obj_get_set_inv in H as [[-> ->]|H]; [left|now right].
  repeat split; eauto. unfold is_angle. eauto.
Qed.

Ltac definers_present :=
  let n := fresh "n" in
  let Hn := fresh "Hn" in
  intros n Hn; simpl in Hn;
  repeat (destruct Hn as [<-|Hn]; [assumption|]); contradiction.

(** A joint is in the result only if the calculator has a block for it
    and every keypoint of that block was accepted; its value is then a
    result of [calculateAngle]. *)
Lemma calculateJointAngles_get_inv (landmarks : list Landmark)
    (k : string) (w : Q) :
  obj_get (calculateJointAngles Math_atan2 landmarks) k = Some w ->
  In k computed_joints /\
  (forall n, In n (defining_landmarks k) -> is_Some (getLandmark landmarks n)) /\
  is_angle Math_atan2 w.
Proof.
  unfold calculateJointAngles. cbv zeta. intros H.
  apply get_set_spine_inv in H as [(-> & ? & ? & ? & ? & ?)|H].
  { split; [simpl; tauto|]. split; [definers_present|assumption]. }
  do 8 (apply get_set_angle3_inv in H as [(-> & ? & ? & ? & ?)|H];
        [split; [simpl; tauto|]; split; [definers_present|assumption]|]).
  discriminate H.
Qed.

(** C6: when one of the keypoints a joint is defined by is missing from
    the frame, not visible, or at or below the 0.5 confidence floor, the
    joint has no entry in the result.  The calculator is a total
    function: there is no failing path. *)
Theorem calculateJointAngles_omits (landmarks : list Landmark)
    (joint n : string) :
  In n (defining_landmarks joint) ->
  unusable_in landmarks n ->
  obj_get (calculateJointAngles Math_atan2 landmarks) joint = None.
Proof.
  intros Hn U.
  destruct (obj_get (calculateJointAngles Math_atan2 landmarks) joint)
    as [w|] eqn:G; [exfalso|reflexivity].
  apply calculateJointAngles_get_inv in G as (_ & D & _).
  destruct (D n Hn) as [l Hl].
  rewrite (getLandmark_unusable landmarks n U) in Hl. discriminate Hl.
Qed.

Lemma get_set_angle3_hit (o : JointAngles) (k : string) (a b c : Landmark) :
  is_Some (obj_get (set_angle3 Math_atan2 o k (Some a) (Some b) (Some c)) k).
Proof. simpl. rewrite obj_get_set, String.eqb_refl. eauto. Qed.

Lemma get_set_angle3_keeps (o : JointAngles) (k k' : string)
    (a b c : option Landmark) :
  is_Some (obj_get o k') ->
  is_Some (obj_get (set_angle3 Math_atan2 o k a b c) k').
Proof.
  intros H. unfold set_angle3. destruct a, b, c; try assumption.
  rewrite obj_get_set. destruct (String.eqb k k'); eauto.
Qed.

Lemma get_set_spine_hit (o : JointAngles) (a b c d : Landmark) :
  is_Some (obj_get (set_spine Math_atan2 o (Some a) (Some b) (Some c) (Some d))
                   "spine").
Proof. simpl. rewrite obj_get_set. simpl. eauto. Qed.

Lemma get_set_spine_keeps (o : JointAngles) (k' : string)
    (a b c d : option Landmark) :
  is_Some (obj_get o k') ->
  is_Some (obj_get (set_spine Math_atan2 o a b c d) k').
Proof.
  intros H. unfold set_spine. destruct a, b, c, d; try assumption.
  rewrite obj_get_set. destruct (String.eqb "spine" k'); eauto.
Qed.

(** Conversely, a computed joint all of whose keypoints were accepted is
    in the result. *)
Lemma calculateJointAngles_computes (landmarks : list Landmark) (joint : string) :
  In joint computed_joints ->
  (forall n, In n (defining_landmarks joint) ->
             is_Some (getLandmark landmarks n)) ->
  is_Some (obj_get (calculateJointAngles Math_atan2 landmarks) joint).
Proof.
  intros J D. unfold calculateJointAngles. cbv zeta.
  simpl in J.
  repeat (destruct J as [<-|J];
          [repeat match goal with
                  | |- context [getLandmark landmarks ?n] =>
                      let l := fresh "l" in
                      let E := fresh "E" in
                      destruct (D n) as [l E];
                      [simpl; tauto|rewrite E; clear E]
                  end;
           repeat lazymatch goal with
                  | |- is_Some (obj_get (set_spine _ _ (Some _) (Some _) (Some _) (Some _)) "spine") =>
                      apply get_set_spine_hit
                  | |- is_Some (obj_get (set_spine _ _ _ _ _ _) _) =>
                      apply get_set_spine_keeps
                  | |- is_Some (obj_get (set_angle3 _ _ ?k (Some _) (Some _) (Some _)) ?k) =>
                      apply get_set_angle3_hit
                  | |- is_Some (obj_get (set_angle3 _ _ _ _ _ _) _) =>
                      apply get_set_angle3_keeps
                  end
          |]).
  contradiction.
Qed.

End CalculatorFacts.

Section CalculatorResults.

Variable Math_atan2 : Q -> Q -> Q.

(** Whatever the frame, the keys of the result are among the nine
    computed joints. *)
Lemma calculateJointAngles_keys (landmarks : list Landmark) (k : string) :
  is_Some (obj_get (calculateJointAngles Math_atan2 landmarks) k) ->
  In k computed_joints.
Proof.
  intros [w G]. now apply calculateJointAngles_get_inv in G as (? & _).
Qed.

(** C1: on a frame in which all 17 keypoints are present, visible,
    confident and in general position, the result has the nine keys the
    calculator has a block for, in the order of the blocks; the wrist,
    ankle and neck keys of the 14 documented joints are missing, as they
    are on every frame. *)
Theorem calculateJointAngles_standing_frame :
  map name standing_frame = KeypointName.all /\
  forallb usable standing_frame = true /\
  Object_keys (calculateJointAngles Math_atan2 standing_frame)
  = ["leftElbow"; "rightElbow"; "leftShoulder"; "rightShoulder";
     "leftKnee"; "rightKnee"; "leftHip"; "rightHip"; "spine"] /\
  List.filter
    (fun k => match obj_get (calculateJointAngles Math_atan2 standing_frame) k with
              | Some _ => false
              | None => true
              end)
    fourteen_joints
  = ["leftWrist"; "rightWrist"; "leftAnkle"; "rightAnkle"; "neck"] /\
  forall (landmarks : list Landmark) (k : string),
    In k ["leftWrist"; "rightWrist"; "leftAnkle"; "rightAnkle"; "neck"] ->
    obj_get (calculateJointAngles Math_atan2 landmarks) k = None.
Proof.
  do 4 (split; [reflexivity|]).
  intros landmarks k Hk.
  destruct (obj_get (calculateJointAngles Math_atan2 landmarks) k) as [w|] eqn:G;
    [exfalso|reflexivity].
  assert (C : In k computed_joints).
  { apply (calculateJointAngles_keys landmarks). rewrite G. eauto. }
  simpl in Hk, C.
  repeat (destruct Hk as [<-|Hk]; [intuition discriminate|]). contradiction.
Qed.

(** C9: [calculateAngle] returns a whole number, the nearest one to the
    angle it computed (ties upwards), and so every value stored by
    [calculateJointAngles] is a whole number of degrees. *)
Theorem calculateAngle_whole_degrees :
  (forall p1 p2 p3 : Point,
      exists n : Z,
        calculateAngle Math_atan2 p1 p2 p3 = inject_Z n /\
        unroundedAngle Math_atan2 p1 p2 p3 - (1 # 2) < inject_Z n /\
        inject_Z n <= unroundedAngle Math_atan2 p1 p2 p3 + (1 # 2)) /\
  (forall (landmarks : list Landmark) (k : string) (w : Q),
      obj_get (calculateJointAngles Math_atan2 landmarks) k = Some w ->
      exists n : Z, w = inject_Z n).
Proof.
  split.
  - intros p1 p2 p3.
    exists (Qfloor (unroundedAngle Math_atan2 p1 p2 p3 + (1 # 2))).
    split; [reflexivity|].
    apply (Math_round_nearest (unroundedAngle Math_atan2 p1 p2 p3)).
  - intros landmarks k w G.
    apply calculateJointAngles_get_inv in G as (_ & _ & p1 & p2 & p3 & ->).
    eexists. reflexivity.
Qed.

End CalculatorResults.

Lemma weak_wrist_unusable : unusable_in weak_wrist_frame KeypointName.LEFT_WRIST.
Proof.
  intros l Hin Hn. simpl in Hin.
  repeat (destruct Hin as [<-|Hin]; [try discriminate Hn|]);
    [|contradiction].
  right. simpl. lra.
Qed.

(** A left wrist at confidence 0.4 removes the left elbow angle. *)
Lemma calculateJointAngles_omits_witness :
  obj_get (calculateJointAngles atan2_coarse weak_wrist_frame) "leftElbow" = None.
Proof.
  apply (calculateJointAngles_omits atan2_coarse weak_wrist_frame
           "leftElbow" KeypointName.LEFT_WRIST).
  - simpl. auto.
  - exact weak_wrist_unusable.
Defined.

(** ** Visibility gate *)

Lemma includes_In (l : list string) (n : string) :
  includes l n = true <-> In n l.
Proof.
  unfold includes. rewrite existsb_exists. split.
  - intros (m & Hm & E). apply String.eqb_eq in E. now subst.
  - intros H. exists n. split; [assumption|apply String.eqb_refl].
Qed.

Lemma qualifies_iff (landmarks : list Landmark) (n : string) :
  qualifies landmarks n = true <->
  exists l, In l landmarks /\ name l = n /\ usable l = true.
Proof.
  unfold qualifies. rewrite existsb_exists. split.
  - intros (l & Hl & E). apply andb_prop in E as [E U].
    apply String.eqb_eq in E. eauto.
  - intros (l & Hl & E & U). exists l. split; [assumption|].
    now rewrite <- E, String.eqb_refl, U.
Qed.

Lemma NoDup_map_filter {A B : Type} (f : A -> B) (p : A -> bool) (l : list A) :
  List.NoDup (map f l) -> List.NoDup (map f (List.filter p l)).
Proof.
  induction l as [|a l IH]; simpl; intros H; [constructor|].
  inversion H as [|? ? Hnot Hrest]; subst.
  destruct (p a); simpl; [|now apply IH].
  constructor; [|now apply IH].
  intros Hin. apply Hnot. apply in_map_iff in Hin as (b & E & Hb).
  apply filter_In in Hb as [Hb _]. apply in_map_iff. eauto.
Qed.

Lemma criticalPoints_NoDup : List.NoDup criticalPoints.
Proof.
  unfold criticalPoints.
  repeat (constructor; [simpl; intuition discriminate|]). constructor.
Qed.

(** Under the one-landmark-per-keypoint invariant the landmarks the gate
    counts are in bijection with the accepted critical keypoints. *)
Lemma visibleCriticalPoints_count (landmarks : list Landmark) :
  List.NoDup (map name landmarks) ->
  length (List.filter
            (fun l => includes criticalPoints (name l) && isVisible l
                      && Qgtb (confidence l) (1 # 2))
            landmarks)
  = length (List.filter (qualifies landmarks) criticalPoints).
Proof.
  intros ND. rewrite <- (length_map name).
  apply Permutation_length, Permutation.NoDup_Permutation.
  - now apply NoDup_map_filter.
  - apply List.NoDup_filter, criticalPoints_NoDup.
  - intros n. rewrite in_map_iff, filter_In, qualifies_iff. split.
    + intros (l & E & Hl). apply filter_In in Hl as [Hl P].
      rewrite <- andb_assoc in P. apply andb_prop in P as [I U].
      apply includes_In in I. subst n. split; [assumption|]. eauto.
    + intros (I & l & Hl & E & U). exists l. split; [assumption|].
      apply filter_In. split; [assumption|].
      rewrite <- andb_assoc. apply andb_true_intro. split; [|exact U].
      apply includes_In. now rewrite E.
Qed.

Lemma visibility_threshold (n : nat) :
  Qgeb (number_of_nat n) (number_of_nat (length criticalPoints) * (7 # 10)) = true
  <-> (5 <= n)%nat.
Proof.
  unfold Qgeb. rewrite Qle_bool_iff. unfold number_of_nat, Qle. simpl. lia.
Qed.

(** C7: for a frame with at most one landmark per keypoint name, the gate
    opens exactly when at least 5 of the 7 critical keypoints are present,
    visible and above the 0.5 floor; five are enough and four are not. *)
Theorem isPersonFullyVisible_iff (landmarks : list Landmark) :
  List.NoDup (map name landmarks) ->
  (isPersonFullyVisible landmarks = true <->
   (5 <= length (List.filter (qualifies landmarks) criticalPoints))%nat) /\
  (length (List.filter (qualifies landmarks) criticalPoints) = 5%nat ->
   isPersonFullyVisible landmarks = true) /\
  (length (List.filter (qualifies landmarks) criticalPoints) = 4%nat ->
   isPersonFullyVisible landmarks = false).
Proof.
  intros ND.
  assert (H : isPersonFullyVisible landmarks = true <->
              (5 <= length (List.filter (qualifies landmarks) criticalPoints))%nat).
  { unfold isPersonFullyVisible. cbv zeta.
    rewrite visibility_threshold, (visibleCriticalPoints_count landmarks ND).
    reflexivity. }
  split; [exact H|]. split.
  - intros E. apply H. lia.
  - intros E. apply not_true_iff_false. intros T. apply H in T. lia.
Qed.

Lemma five_of_seven_NoDup : List.NoDup (map name five_of_seven_frame).
Proof.
  simpl. repeat (constructor; [simpl; intuition discriminate|]). constructor.
Qed.

Lemma isPersonFullyVisible_iff_witness :
  (isPersonFullyVisible five_of_seven_frame = true <->
   (5 <= length (List.filter (qualifies five_of_seven_frame) criticalPoints))%nat) /\
  (length (List.filter (qualifies five_of_seven_frame) criticalPoints) = 5%nat ->
   isPersonFullyVisible five_of_seven_frame = true) /\
  (length (List.filter (qualifies five_of_seven_frame) criticalPoints) = 4%nat ->
   isPersonFullyVisible five_of_seven_frame = false).
Proof.
  apply (isPersonFullyVisible_iff five_of_seven_frame).
  exact five_of_seven_NoDup.
Defined.

(** ** Pose comparator *)

Lemma obj_get_key (o : JointAngles) (k : string) :
  In k (Object_keys o) -> exists v, obj_get o k = Some v.
Proof.
  induction o as [|[k0 v0] o IH]; simpl; [contradiction|].
  intros [E|H].
  - subst k0. rewrite String.eqb_refl. eauto.
  - destruct (String.eqb k0 k); eauto.
Qed.

Lemma Math_max_comp (a b b' : Q) : b == b' -> Math_max a b == Math_max a b'.
Proof.
  intros E. unfold Math_max.
  rewrite (Qleb_comp a a (Qeq_refl a) b b' E).
  destruct (Qle_bool a b'); [exact E|reflexivity].
Qed.

Lemma number_of_nat_S (n : nat) : number_of_nat (S n) == number_of_nat n + 1.
Proof.
  unfold number_of_nat. rewrite Nat2Z.inj_succ, <- Z.add_1_r, inject_Z_plus.
  reflexivity.
Qed.

Lemma number_of_nat_nonneg (n : nat) : 0 <= number_of_nat n.
Proof.
  unfold number_of_nat. change 0 with (inject_Z 0). rewrite <- Zle_Qle. lia.
Qed.

Section ComparatorFacts.

Variables (detectedAngles referenceAngles : JointAngles) (tolerance : Q).

(** One iteration adds the joint's credit to [matchCount] and one to
    [totalCount]. *)
Lemma compare_step_credit (m c : Q) (k : string) :
  ~ tolerance == 0 ->
  is_Some (obj_get referenceAngles k) ->
  fst (compare_step detectedAngles referenceAngles tolerance (m, c) k)
    == m + jointCredit detectedAngles referenceAngles tolerance k /\
  snd (compare_step detectedAngles referenceAngles tolerance (m, c) k)
    == c + 1.
Proof.
  intros T [r R]. unfold compare_step, jointCredit, spec_credit. rewrite R.
  destruct (obj_get detectedAngles k) as [d|]; [|cbn [fst snd]; split; lra].
  assert (E : Math_abs (r - d) == Qabs (d - r)).
  { unfold Math_abs. rewrite <- (Qabs_opp (d - r)). apply Qabs_wd. lra. }
  cbv zeta. rewrite (Qleb_comp _ _ E tolerance tolerance (Qeq_refl _)).
  destruct (Qle_bool (Qabs (d - r)) tolerance); cbn [fst snd]; [split; lra|].
  split; [|lra]. unfold partialCredit.
  destruct (Qeq_bool tolerance 0) eqn:Z.
  - apply Qeq_bool_eq in Z. contradiction.
  - apply Qplus_comp; [reflexivity|]. apply Math_max_comp. now rewrite E.
Qed.

Lemma compare_fold (ks : list string) (m c : Q) :
  ~ tolerance == 0 ->
  (forall k, In k ks -> is_Some (obj_get referenceAngles k)) ->
  fst (fold_left (compare_step detectedAngles referenceAngles tolerance) ks (m, c))
    == m + Qsum (map (jointCredit detectedAngles referenceAngles tolerance) ks) /\
  snd (fold_left (compare_step detectedAngles referenceAngles tolerance) ks (m, c))
    == c + number_of_nat (length ks).
Proof.
  intros T. revert m c. induction ks as [|k ks IH]; intros m c D.
  - cbn [fold_left map length fst snd Qsum fold_right].
    change (number_of_nat 0) with 0. split; lra.
  - cbn [fold_left map length].
    destruct (compare_step_credit m c k T (D k (or_introl eq_refl))) as [S1 S2].
    destruct (compare_step detectedAngles referenceAngles tolerance (m, c) k)
      as [m1 c1].
    destruct (IH m1 c1 (fun k' H => D k' (or_intror H))) as [F1 F2].
    simpl in S1, S2. rewrite F1, F2, S1, S2, number_of_nat_S.
    unfold Qsum. cbn [fold_right]. fold (Qsum (map (jointCredit detectedAngles referenceAngles tolerance) ks)).
    split; lra.
Qed.

Lemma compare_result :
  ~ tolerance == 0 ->
  referenceAngles <> [] ->
  comparePoseAngles detectedAngles referenceAngles tolerance
  = Math_round (100 * Qsum (map (jointCredit detectedAngles referenceAngles tolerance) (Object_keys referenceAngles))
                / countOfReferenceJoints referenceAngles).
Proof.
  intros T NE. unfold comparePoseAngles, countOfReferenceJoints. cbv zeta.
  destruct (compare_fold (Object_keys referenceAngles) 0 0 T) as [F1 F2].
  { intros k Hk. destruct (obj_get_key _ _ Hk) as [v Hv]. rewrite Hv. eauto. }
  destruct (fold_left _ (Object_keys referenceAngles) (0, 0)) as [m c].
  simpl in F1, F2.
  assert (P : 0 < number_of_nat (length (Object_keys referenceAngles))).
  { destruct referenceAngles as [|e o]; [contradiction|].
    simpl. rewrite number_of_nat_S.
    assert (N := number_of_nat_nonneg (length (Object_keys o))). lra. }
  assert (G : Qgtb c 0 = true) by (apply Qgtb_true; lra).
  rewrite G. apply Math_round_comp. rewrite F1, F2. field. lra.
Qed.

End ComparatorFacts.

(** Half-way credit: at twice the tolerance the exact value of the partial
    credit is down to 0. *)
Lemma spec_credit_twice (t d r : Q) :
  0 < t -> Qabs (d - r) == 2 * t -> spec_credit t (Some d) r == 0.
Proof.
  intros P E. unfold spec_credit. cbv zeta.
  destruct (Qle_bool (Qabs (d - r)) t) eqn:L.
  - apply Qle_bool_iff in L. lra.
  - unfold Math_max.
    destruct (Qle_bool 0 (1 - (Qabs (d - r) - t) / t)) eqn:M; [|reflexivity].
    rewrite E. field. lra.
Qed.

Lemma obj_get_key_double (o : Double.JointAngles) (k : string) :
  In k (Double.Object_keys o) -> is_Some (Double.obj_get o k).
Proof.
  induction o as [|[k0 v0] o IH]; simpl; [contradiction|].
  intros [E|H].
  - subst k0. rewrite String.eqb_refl. eauto.
  - destruct (String.eqb k0 k); eauto.
Qed.

(** The loop over doubles with its two counters taken apart: the credits
    of the detected joints are added to [matchCount] in key order, and
    [totalCount] goes up by one for every key. *)
Lemma compare_fold_double (detected reference : Double.JointAngles) (t : float)
    (ks : list string) (m c : float) :
  (forall k, In k ks -> is_Some (Double.obj_get reference k)) ->
  fold_left (Double.compare_step detected reference t) ks (m, c)
  = (fold_left PrimFloat.add
       (flat_map (fun k => match Double.obj_get reference k,
                                 Double.obj_get detected k with
                           | Some r, Some d => [Double.credit t d r]
                           | _, _ => []
                           end) ks) m,
     Nat.iter (length ks) (fun c => PrimFloat.add c 1%float) c).
Proof.
  revert m c. induction ks as [|k ks IH]; intros m c D; [reflexivity|].
  cbn [fold_left flat_map length].
  destruct (D k (or_introl eq_refl)) as [r R].
  rewrite Nat.iter_succ_r.
  unfold Double.compare_step at 2. rewrite R.
  destruct (Double.obj_get detected k) as [d|].
  - cbv zeta. rewrite fold_left_app. cbn [fold_left].
    unfold Double.credit. cbv zeta.
    destruct (PrimFloat.leb _ t); apply IH; intros k' H; apply D; now right.
  - apply IH. intros k' H. apply D. now right.
Qed.

(** C2, as stated: the score is not the rounded exact percentage.  A left
    knee 57 degrees off at tolerance 40 has credit 23/40 and an exact
    percentage of 57.5, which rounds to 58; in doubles the credit is just
    below 0.575, the percentage just below 57.5, and the function returns
    57.  Nor is it the formula with the product taken first in doubles:
    for credits 39/40 and 12/40 over three reference joints the function
    returns 43, the product-first formula 42. *)
Lemma comparePoseAngles_score_rounding :
  (Double.comparePoseAngles [("leftKnee", 147%float)] [("leftKnee", 90%float)]
                            40%float = 57%float /\
   spec_score [("leftKnee", 147)] [("leftKnee", 90)] 40 = 58 /\
   ~ Double.exact (Double.comparePoseAngles [("leftKnee", 147%float)]
                                            [("leftKnee", 90%float)] 40%float)
     == spec_score [("leftKnee", 147)] [("leftKnee", 90)] 40) /\
  (Double.comparePoseAngles
     [("leftElbow", 131%float); ("rightElbow", 158%float)]
     [("leftElbow", 90%float); ("rightElbow", 90%float); ("leftKnee", 90%float)]
     40%float = 43%float /\
   Double.Math_round
     (100 * Double.sumOfCredits
              [("leftElbow", 131%float); ("rightElbow", 158%float)]
              [("leftElbow", 90%float); ("rightElbow", 90%float);
               ("leftKnee", 90%float)] 40%float
      / Double.countOfReferenceJoints
          [("leftElbow", 90%float); ("rightElbow", 90%float);
           ("leftKnee", 90%float)])%float = 42%float).
Proof.
  split; [split; [|split]|split].
  - vm_compute. reflexivity.
  - vm_compute. reflexivity.
  - vm_compute. discriminate.
  - vm_compute. reflexivity.
  - vm_compute. reflexivity.
Qed.

(** C2, amended: in the double arithmetic of the source, and for every
    tolerance, zero included, the score is the rounded percentage
    [Math.round ((sumOfCredits / countOfReferenceJoints) * 100)]: the
    credits of the reference joints found in [detected] are added from the
    left in key order, every reference key counts in the denominator, a
    joint within the tolerance has credit 1 and any other
    [Math.max (0, 1 - (diff - t) / t)]; a reference without joints scores
    0; and the exact value of the partial credit is 0 at twice the
    tolerance. *)
Theorem comparePoseAngles_score (detected reference : Double.JointAngles)
    (t : float) :
  Double.comparePoseAngles detected reference t
  = Double.spec_score detected reference t /\
  Double.comparePoseAngles detected [] t = 0%float /\
  (forall tq d r : Q, 0 < tq -> Qabs (d - r) == 2 * tq ->
                      spec_credit tq (Some d) r == 0).
Proof.
  split; [|split].
  - unfold Double.comparePoseAngles, Double.spec_score, Double.sumOfCredits,
      Double.credits, Double.countOfReferenceJoints.
    cbv zeta.
    rewrite compare_fold_double by (intros k; apply obj_get_key_double).
    reflexivity.
  - reflexivity.
  - intros tq d r. apply spec_credit_twice.
Qed.

(** Left knee 57 degrees off at tolerance 40. *)
Lemma comparePoseAngles_score_witness :
  Double.comparePoseAngles [("leftKnee", 147%float)] [("leftKnee", 90%float)]
                           40%float
  = Double.spec_score [("leftKnee", 147%float)] [("leftKnee", 90%float)]
                      40%float /\
  Double.comparePoseAngles [("leftKnee", 147%float)] [] 40%float = 0%float /\
  (forall tq d r : Q, 0 < tq -> Qabs (d - r) == 2 * tq ->
                      spec_credit tq (Some d) r == 0).
Proof.
  apply (comparePoseAngles_score [("leftKnee", 147%float)]
           [("leftKnee", 90%float)] 40%float).
Defined.

(** Tolerance zero in doubles: an exact match has credit 1; any miss
    divides by zero, [1 - Infinity] is [-Infinity], and the credit is 0.
    And a joint off by twice the tolerance has credit 0. *)
Example comparePoseAngles_zero_tolerance :
  Double.comparePoseAngles [("leftKnee", 90%float)] [("leftKnee", 90%float)]
                           0%float = 100%float /\
  Double.comparePoseAngles [("leftKnee", 91%float)] [("leftKnee", 90%float)]
                           0%float = 0%float /\
  Double.credit 15%float 60%float 90%float = 0%float.
Proof. vm_compute. repeat split. Qed.

(** In doubles: nine reference joints are counted as 9; a left knee 20
    degrees off with the right knee undetected scores 33, two joints
    within the tolerance 100, a full miss 0. *)
Example comparePoseAngles_double_scenarios :
  Double.countOfReferenceJoints
    [("leftElbow", 90%float); ("rightElbow", 90%float);
     ("leftShoulder", 90%float); ("rightShoulder", 90%float);
     ("leftKnee", 90%float); ("rightKnee", 90%float);
     ("leftHip", 90%float); ("rightHip", 90%float); ("spine", 90%float)]
  = 9%float /\
  Double.comparePoseAngles [("leftKnee", 70%float)]
    [("leftKnee", 90%float); ("rightKnee", 180%float)] 15%float = 33%float /\
  Double.comparePoseAngles [("leftKnee", 90%float); ("rightKnee", 170%float)]
    [("leftKnee", 90%float); ("rightKnee", 180%float)] 15%float = 100%float /\
  Double.comparePoseAngles [("leftKnee", 60%float)]
    [("leftKnee", 90%float); ("rightKnee", 180%float)] 15%float = 0%float.
Proof. vm_compute. repeat split. Qed.

(** The two scenarios of the specification. *)
Example comparePoseAngles_within_tolerance :
  comparePoseAngles [("leftKnee", 90); ("rightKnee", 170)]
                    [("leftKnee", 90); ("rightKnee", 180)] 15 = 100.
Proof. vm_compute. reflexivity. Qed.

Example comparePoseAngles_full_miss :
  comparePoseAngles [("leftKnee", 60)]
                    [("leftKnee", 90); ("rightKnee", 180)] 15 = 0.
Proof. vm_compute. reflexivity. Qed.

Lemma Qsum_ones (f : string -> Q) (ks : list string) :
  (forall k, In k ks -> f k == 1) ->
  Qsum (map f ks) == number_of_nat (length ks).
Proof.
  induction ks as [|k ks IH]; intros H.
  - reflexivity.
  - cbn [map length]. rewrite number_of_nat_S.
    unfold Qsum. cbn [fold_right]. fold (Qsum (map f ks)).
    rewrite (H k (or_introl eq_refl)), IH; [lra|].
    intros k' Hk'. apply H. now right.
Qed.

Lemma spec_credit_exact (t r : Q) : 0 <= t -> spec_credit t (Some r) r == 1.
Proof.
  intros T. unfold spec_credit. cbv zeta.
  assert (L : Qle_bool (Qabs (r - r)) t = true).
  { apply Qle_bool_iff.
    assert (E : Qabs (r - r) == 0) by (rewrite <- Qabs_wd with (x := 0); [reflexivity|lra]).
    lra. }
  now rewrite L.
Qed.

(** C4, on the empty map: no reference joint, score 0. *)
Lemma comparePoseAngles_empty_self :
  comparePoseAngles [] [] 15 = 0 /\ ~ comparePoseAngles [] [] 15 == 100.
Proof. split; [reflexivity|discriminate]. Qed.

(** C4, amended: a map with at least one joint compared with itself at
    tolerance 15 scores 100. *)
Theorem comparePoseAngles_self (a : JointAngles) :
  a <> [] -> comparePoseAngles a a 15 = 100.
Proof.
  intros NE. rewrite compare_result by (assumption || discriminate).
  change 100 with (inject_Z 100) at 2. rewrite <- (Math_round_Z 100).
  apply Math_round_comp. unfold countOfReferenceJoints.
  rewrite Qsum_ones.
  - assert (P : 0 < number_of_nat (length (Object_keys a))).
    { destruct a as [|e o]; [contradiction|].
      simpl. rewrite number_of_nat_S.
      assert (N := number_of_nat_nonneg (length (Object_keys o))). lra. }
    change (inject_Z 100) with 100. field. lra.
  - intros k Hk. unfold jointCredit.
    destruct (obj_get_key a k Hk) as [r R]. rewrite R.
    apply spec_credit_exact. discriminate.
Qed.

Lemma comparePoseAngles_self_witness :
  comparePoseAngles [("leftKnee", 90); ("rightKnee", 180)]
                    [("leftKnee", 90); ("rightKnee", 180)] 15 = 100.
Proof.
  apply (comparePoseAngles_self [("leftKnee", 90); ("rightKnee", 180)]).
  discriminate.
Defined.

(** ** Landmark smoother *)

Lemma smooth_step_alpha (this : LandmarkSmoother) (current : Landmark) :
  alpha (snd (smooth_step this current)) = alpha this.
Proof.
  unfold smooth_step. now destruct (previousLandmarks this !! name current).
Qed.

Lemma smooth_step_stored (this : LandmarkSmoother) (current : Landmark) :
  previousLandmarks (snd (smooth_step this current)) !! name current
  = Some (fst (smooth_step this current)).
Proof.
  unfold smooth_step.
  destruct (previousLandmarks this !! name current); simpl;
    apply lookup_insert_eq.
Qed.

Lemma smooth_step_other (this : LandmarkSmoother) (current : Landmark) (n : string) :
  n <> name current ->
  previousLandmarks (snd (smooth_step this current)) !! n
  = previousLandmarks this !! n.
Proof.
  intros NE. unfold smooth_step.
  destruct (previousLandmarks this !! name current); simpl;
    now apply lookup_insert_ne.
Qed.

Lemma smooth_cons (this : LandmarkSmoother) (current : Landmark)
    (rest : list Landmark) :
  smooth this (current :: rest)
  = (fst (smooth_step this current)
       :: fst (smooth (snd (smooth_step this current)) rest),
     snd (smooth (snd (smooth_step this current)) rest)).
Proof.
  simpl. destruct (smooth_step this current) as [l this1].
  simpl. now destruct (smooth this1 rest).
Qed.

Lemma smooth_alpha (this : LandmarkSmoother) (frame : list Landmark) :
  alpha (snd (smooth this frame)) = alpha this.
Proof.
  revert this. induction frame as [|c rest IH]; intros this; [reflexivity|].
  rewrite smooth_cons. simpl. now rewrite IH, smooth_step_alpha.
Qed.

(** A keypoint absent from the raw frame keeps its stored value. *)
Lemma smooth_other (this : LandmarkSmoother) (frame : list Landmark) (n : string) :
  ~ In n (map name frame) ->
  previousLandmarks (snd (smooth this frame)) !! n = previousLandmarks this !! n.
Proof.
  revert this. induction frame as [|c rest IH]; intros this H; [reflexivity|].
  rewrite smooth_cons. simpl in *.
  rewrite IH by tauto. apply smooth_step_other. intros E. apply H. now left.
Qed.

(** The landmark emitted at position [i] and stored under its name is the
    one the loop body computes from the state the call started in. *)
Lemma smooth_at (this : LandmarkSmoother) (frame : list Landmark)
    (i : nat) (cur : Landmark) :
  List.NoDup (map name frame) ->
  frame !! i = Some cur ->
  exists sm : Landmark,
    fst (smooth this frame) !! i = Some sm /\
    previousLandmarks (snd (smooth this frame)) !! name cur = Some sm /\
    sm = fst (smooth_step
                {| previousLandmarks :=
                     match previousLandmarks this !! name cur with
                     | Some p => {[ name cur := p ]}
                     | None => ∅
                     end;
                   alpha := alpha this |} cur).
Proof.
  revert this i. induction frame as [|c rest IH]; intros this i ND Hi.
  - discriminate Hi.
  - inversion ND as [|? ? Hnot Hrest]; subst. rewrite smooth_cons.
    destruct i as [|j]; simpl in Hi.
    + injection Hi as ->. exists (fst (smooth_step this cur)).
      split; [reflexivity|]. split.
      * cbn [snd]. rewrite smooth_other by assumption. apply smooth_step_stored.
      * unfold smooth_step. cbn [previousLandmarks alpha].
        destruct (previousLandmarks this !! name cur) as [p|].
        -- now rewrite lookup_singleton_eq.
        -- now rewrite lookup_empty.
    + assert (NE : name cur <> name c).
      { intros E. apply Hnot. rewrite <- E. apply in_map.
        apply list_elem_of_In, list_elem_of_lookup. eauto. }
      destruct (IH (snd (smooth_step this c)) j Hrest Hi) as (sm & O & S & E).
      exists sm. split; [exact O|]. split; [exact S|].
      rewrite E, smooth_step_other, smooth_step_alpha by assumption.
      reflexivity.
Qed.

(** C3: for a keypoint with a stored previous value, [smooth] emits the
    raw landmark with each coordinate replaced by
    alpha * raw + (1 - alpha) * previous ([z] when both have one, the raw
    [z] otherwise), the other fields untouched, and stores the emitted
    landmark as the new previous value.  The frame holds at most one
    landmark per keypoint name. *)
Theorem smooth_ema (this : LandmarkSmoother) (frame : list Landmark)
    (i : nat) (cur prev : Landmark) :
  List.NoDup (map name frame) ->
  frame !! i = Some cur ->
  previousLandmarks this !! name cur = Some prev ->
  exists sm : Landmark,
    fst (smooth this frame) !! i = Some sm /\
    x sm = alpha this * x cur + (1 - alpha this) * x prev /\
    y sm = alpha this * y cur + (1 - alpha this) * y prev /\
    z sm = match z cur, z prev with
           | Some cz, Some pz => Some (alpha this * cz + (1 - alpha this) * pz)
           | _, _ => z cur
           end /\
    name sm = name cur /\
    confidence sm = confidence cur /\
    isVisible sm = isVisible cur /\
    previousLandmarks (snd (smooth this frame)) !! name cur = Some sm.
Proof.
  intros ND Hi Hp. destruct (smooth_at this frame i cur ND Hi) as (sm & O & S & E).
  exists sm. rewrite Hp in E. unfold smooth_step in E.
  cbn [previousLandmarks alpha] in E. rewrite lookup_singleton_eq in E.
  cbn [fst] in E. subst sm. repeat split; assumption.
Qed.

Lemma smooth_ema_witness :
  exists sm : Landmark,
    fst (smooth running_smoother wrist_frame) !! 0%nat = Some sm /\
    x sm = (3 # 10) * (64 # 100) + (1 - (3 # 10)) * (60 # 100) /\
    y sm = (3 # 10) * (55 # 100) + (1 - (3 # 10)) * (50 # 100) /\
    z sm = Some ((3 # 10) * (1 # 2) + (1 - (3 # 10)) * (1 # 2)) /\
    name sm = KeypointName.LEFT_WRIST /\
    confidence sm = 9 # 10 /\
    isVisible sm = false /\
    previousLandmarks (snd (smooth running_smoother wrist_frame))
      !! KeypointName.LEFT_WRIST = Some sm.
Proof.
  apply (smooth_ema running_smoother wrist_frame 0
           (keypoint KeypointName.LEFT_WRIST 64 55 (9 # 10) false)
           (keypoint KeypointName.LEFT_WRIST 60 50 (8 # 10) true)).
  - repeat constructor. simpl. tauto.
  - reflexivity.
  - reflexivity.
Defined.

(** With no stored value for any keypoint of the frame, the frame passes
    through unchanged. *)
Lemma smooth_fresh (this : LandmarkSmoother) (frame : list Landmark) :
  List.NoDup (map name frame) ->
  (forall l, In l frame -> previousLandmarks this !! name l = None) ->
  fst (smooth this frame) = frame.
Proof.
  revert this. induction frame as [|c rest IH]; intros this ND F; [reflexivity|].
  inversion ND as [|? ? Hnot Hrest]; subst. rewrite smooth_cons. cbn [fst].
  f_equal.
  - unfold smooth_step. now rewrite (F c (or_introl eq_refl)).
  - apply IH; [assumption|]. intros l Hl.
    rewrite smooth_step_other; [apply F; now right|].
    intros E. apply Hnot. rewrite <- E. now apply in_map.
Qed.

(** C5: a keypoint without a stored previous value is emitted exactly as
    the raw landmark (and stored as such); [reset] empties the history, so
    the frame after a reset, like the first frame of a new smoother, comes
    back unchanged.  The frame holds at most one landmark per keypoint
    name. *)
Theorem smooth_first_sighting (this : LandmarkSmoother) (frame : list Landmark) :
  List.NoDup (map name frame) ->
  (forall (i : nat) (cur : Landmark),
      frame !! i = Some cur ->
      previousLandmarks this !! name cur = None ->
      fst (smooth this frame) !! i = Some cur /\
      previousLandmarks (snd (smooth this frame)) !! name cur = Some cur) /\
  previousLandmarks (reset this) = ∅ /\
  fst (smooth (reset this) frame) = frame /\
  (forall a : Q, fst (smooth (new_LandmarkSmoother a) frame) = frame).
Proof.
  intros ND. split; [|split; [reflexivity|split]].
  - intros i cur Hi Hp.
    destruct (smooth_at this frame i cur ND Hi) as (sm & O & S & E).
    rewrite Hp in E. unfold smooth_step in E.
    cbn [previousLandmarks alpha] in E. rewrite lookup_empty in E.
    cbn [fst] in E. subst sm. split; assumption.
  - apply smooth_fresh; [assumption|]. intros l _. apply lookup_empty.
  - intros a. apply smooth_fresh; [assumption|]. intros l _. apply lookup_empty.
Qed.

Lemma smooth_first_sighting_witness :
  (forall (i : nat) (cur : Landmark),
      standing_frame !! i = Some cur ->
      previousLandmarks running_smoother !! name cur = None ->
      fst (smooth running_smoother standing_frame) !! i = Some cur /\
      previousLandmarks (snd (smooth running_smoother standing_frame)) !! name cur
      = Some cur) /\
  previousLandmarks (reset running_smoother) = ∅ /\
  fst (smooth (reset running_smoother) standing_frame) = standing_frame /\
  (forall a : Q, fst (smooth (new_LandmarkSmoother a) standing_frame) = standing_frame).
Proof.
  apply (smooth_first_sighting running_smoother standing_frame).
  simpl. repeat (constructor; [simpl; intuition discriminate|]). constructor.
Defined.

(** ** The module-wide smoother *)

Lemma getSmoother_installs (m0 m : ModuleState) (a : Q) (r : nat) :
  module_wf m0 ->
  getSmoother a m0 = (r, m) ->
  smootherInstance m = Some r /\ currentAlpha m == a /\ (r < length (heap m))%nat.
Proof.
  unfold module_wf, getSmoother, install_smoother. intros W G.
  destruct (smootherInstance m0) as [r0|] eqn:I.
  - destruct (Qeq_bool (currentAlpha m0) a) eqn:E; simpl in G.
    + injection G as <- <-. apply Qeq_bool_eq in E. auto.
    + injection G as <- <-. simpl. rewrite length_app. simpl.
      split; [reflexivity|split; [reflexivity|lia]].
  - injection G as <- <-. simpl. rewrite length_app. simpl.
    split; [reflexivity|split; [reflexivity|lia]].
Qed.

Lemma getSmoother_same (m : ModuleState) (a : Q) (r : nat) :
  smootherInstance m = Some r -> currentAlpha m == a ->
  getSmoother a m = (r, m).
Proof.
  intros I E. unfold getSmoother. rewrite I.
  now rewrite (Qeq_eq_bool _ _ E).
Qed.

Lemma getSmoother_changed (m : ModuleState) (a : Q) (r : nat) :
  smootherInstance m = Some r -> ~ currentAlpha m == a ->
  getSmoother a m = install_smoother a m.
Proof.
  intros I NE. unfold getSmoother. rewrite I.
  destruct (Qeq_bool (currentAlpha m) a) eqn:E; [|reflexivity].
  apply Qeq_bool_eq in E. contradiction.
Qed.

Lemma insert_last {A : Type} (l : list A) (v w : A) :
  <[length l := w]> (l ++ [v])%list = (l ++ [w])%list.
Proof.
  rewrite insert_app_r_alt by lia. now rewrite Nat.sub_diag.
Qed.

(** C10: after a call of [getSmoother] with factor [a], and however the
    installed smoother has been used since, a call with the same factor
    returns the same reference and changes nothing, and [applySmoothing]
    with that factor smooths the frame through the smoother stored under
    that reference and stores its new history there, so all callers feed
    one history.  A call with another factor installs a newly allocated
    smoother with empty history; [applySmoothing] with the changed factor
    smooths through that new smoother, leaves it installed with the
    history of this one frame, and returns the frame unsmoothed, whatever
    had been accumulated; and no later call of [getSmoother], whatever its
    factor, returns the old smoother again. *)
Theorem getSmoother_singleton (m0 m : ModuleState) (a : Q) (r : nat) :
  module_wf m0 ->
  getSmoother a m0 = (r, m) ->
  forall h : list LandmarkSmoother,
    length h = length (heap m) ->
    let m' := {| heap := h; smootherInstance := smootherInstance m;
                 currentAlpha := currentAlpha m |} in
    getSmoother a m' = (r, m') /\
    (exists s : LandmarkSmoother,
       h !! r = Some s /\
       forall frame : list Landmark,
         applySmoothing frame
           {| enableSmoothing := true; smoothingFactor := a |} m'
         = (fst (smooth s frame),
            {| heap := <[r := snd (smooth s frame)]> h;
               smootherInstance := Some r;
               currentAlpha := currentAlpha m |})) /\
    forall a' : Q,
      ~ a' == a ->
      let r' := fst (getSmoother a' m') in
      let m'' := snd (getSmoother a' m') in
      r' <> r /\
      h !! r' = None /\
      smootherInstance m'' = Some r' /\
      heap m'' !! r' = Some (new_LandmarkSmoother a') /\
      previousLandmarks (new_LandmarkSmoother a') = ∅ /\
      heap m'' !! r = h !! r /\
      (forall frame : list Landmark,
         applySmoothing frame
           {| enableSmoothing := true; smoothingFactor := a' |} m'
         = (fst (smooth (new_LandmarkSmoother a') frame),
            {| heap := (h ++ [snd (smooth (new_LandmarkSmoother a') frame)])%list;
               smootherInstance := Some r';
               currentAlpha := a' |})) /\
      (forall frame : list Landmark,
         List.NoDup (map name frame) ->
         fst (applySmoothing frame
                {| enableSmoothing := true; smoothingFactor := a' |} m')
         = frame) /\
      forall (frame : list Landmark) (a'' : Q),
        fst (getSmoother a''
               (snd (applySmoothing frame
                       {| enableSmoothing := true; smoothingFactor := a' |} m')))
        <> r.
Proof.
  intros W G h L m'.
  destruct (getSmoother_installs m0 m a r W G) as (I & E & B).
  assert (G' : getSmoother a m' = (r, m')) by now apply getSmoother_same.
  assert (C : forall a', ~ a' == a ->
                getSmoother a' m' = install_smoother a' m').
  { intros a' NE. apply (getSmoother_changed m' a' r); [exact I|].
    simpl. intros E'. apply NE. now rewrite <- E', E. }
  assert (A : forall a' frame, ~ a' == a ->
                applySmoothing frame
                  {| enableSmoothing := true; smoothingFactor := a' |} m'
                = (fst (smooth (new_LandmarkSmoother a') frame),
                   {| heap := (h ++ [snd (smooth (new_LandmarkSmoother a') frame)])%list;
                      smootherInstance := Some (length h);
                      currentAlpha := a' |})).
  { intros a' frame NE. unfold applySmoothing.
    cbn [enableSmoothing negb smoothingFactor].
    rewrite (C a' NE). unfold install_smoother.
    cbn [heap smootherInstance currentAlpha m'].
    rewrite list_lookup_middle by reflexivity.
    destruct (smooth (new_LandmarkSmoother a') frame) as [out s'].
    cbn [fst snd]. now rewrite insert_last. }
  split; [exact G'|]. split.
  { destruct (lookup_lt_is_Some_2 h r) as [s Hs]; [lia|].
    exists s. split; [exact Hs|]. intros frame.
    unfold applySmoothing. cbn [enableSmoothing negb smoothingFactor].
    rewrite G'. cbn [heap smootherInstance currentAlpha m']. rewrite Hs.
    destruct (smooth s frame) as [out s']. cbn [fst snd]. now rewrite I. }
  intros a' NE. rewrite (C a' NE). unfold install_smoother.
  cbn [fst snd heap smootherInstance m'].
  split; [lia|].
  split; [apply lookup_ge_None; lia|].
  split; [reflexivity|].
  split; [apply list_lookup_middle; reflexivity|].
  split; [reflexivity|].
  split; [apply lookup_app_l; lia|].
  split; [intros frame; apply (A a' frame NE)|].
  split.
  - intros frame ND. rewrite (A a' frame NE). cbn [fst].
    apply smooth_fresh; [exact ND|]. intros l _. apply lookup_empty.
  - intros frame a''. rewrite (A a' frame NE). cbn [snd].
    unfold getSmoother, install_smoother. cbn [smootherInstance currentAlpha heap].
    destruct (negb (Qeq_bool a' a'')); cbn [fst]; [rewrite length_app; simpl|]; lia.
Qed.

Lemma getSmoother_singleton_witness :
  getSmoother (3 # 10) running_module = (0%nat, running_module) /\
  (exists s : LandmarkSmoother,
     [running_smoother] !! 0%nat = Some s /\
     forall frame : list Landmark,
       applySmoothing frame
         {| enableSmoothing := true; smoothingFactor := 3 # 10 |} running_module
       = (fst (smooth s frame),
          {| heap := <[0%nat := snd (smooth s frame)]> [running_smoother];
             smootherInstance := Some 0%nat;
             currentAlpha := 3 # 10 |})) /\
  forall a' : Q,
    ~ a' == 3 # 10 ->
    let r' := fst (getSmoother a' running_module) in
    let m'' := snd (getSmoother a' running_module) in
    r' <> 0%nat /\
    [running_smoother] !! r' = None /\
    smootherInstance m'' = Some r' /\
    heap m'' !! r' = Some (new_LandmarkSmoother a') /\
    previousLandmarks (new_LandmarkSmoother a') = ∅ /\
    heap m'' !! 0%nat = [running_smoother] !! 0%nat /\
    (forall frame : list Landmark,
       applySmoothing frame
         {| enableSmoothing := true; smoothingFactor := a' |} running_module
       = (fst (smooth (new_LandmarkSmoother a') frame),
          {| heap := ([running_smoother]
                      ++ [snd (smooth (new_LandmarkSmoother a') frame)])%list;
             smootherInstance := Some r';
             currentAlpha := a' |})) /\
    (forall frame : list Landmark,
       List.NoDup (map name frame) ->
       fst (applySmoothing frame
              {| enableSmoothing := true; smoothingFactor := a' |} running_module)
       = frame) /\
    forall (frame : list Landmark) (a'' : Q),
      fst (getSmoother a''
             (snd (applySmoothing frame
                     {| enableSmoothing := true; smoothingFactor := a' |}
                     running_module)))
      <> 0%nat.
Proof.
  apply (getSmoother_singleton initial_module
           (snd (getSmoother (3 # 10) initial_module)) (3 # 10) 0
           I eq_refl [running_smoother] eq_refl).
Defined.

(** The running module: the same factor smooths against the accumulated
    left wrist, another factor returns the raw frame. *)
Example applySmoothing_same_factor :
  fst (applySmoothing wrist_frame
         {| enableSmoothing := true; smoothingFactor := 3 # 10 |} running_module)
  = [ {| name := KeypointName.LEFT_WRIST;
         x := (3 # 10) * (64 # 100) + (1 - (3 # 10)) * (60 # 100);
         y := (3 # 10) * (55 # 100) + (1 - (3 # 10)) * (50 # 100);
         z := Some ((3 # 10) * (1 # 2) + (1 - (3 # 10)) * (1 # 2));
         confidence := 9 # 10;
         isVisible := false |} ].
Proof. vm_compute. reflexivity. Qed.

Example applySmoothing_other_factor :
  fst (applySmoothing wrist_frame
         {| enableSmoothing := true; smoothingFactor := 1 # 2 |} running_module)
  = wrist_frame.
Proof. vm_compute. reflexivity. Qed.


(** * Further properties of the code *)

(** ** Geometry helpers *)

Section MoreGeometry.

Variable Math_atan2 : Q -> Q -> Q.

(** X1: when the two outer points coincide the angle is 0, whatever the
    vertex and whatever [Math.atan2] returns. *)
Theorem calculateAngle_coincident (a b : Point) :
  calculateAngle Math_atan2 a b a = 0.
Proof.
  rewrite calculateAngle_unrounded.
  change 0 with (inject_Z 0). rewrite <- (Math_round_Z 0).
  apply Math_round_comp. unfold unroundedAngle, Math_abs. cbv zeta.
  set (A := Math_atan2 (py a - py b) (px a - px b)).
  assert (E : Qabs ((A - A) * 180 / Math_PI) == 0).
  { rewrite <- (Qabs_wd 0); [reflexivity|]. rewrite div_Math_PI. lra. }
  rewrite (fold_angle_comp _ 0 E). reflexivity.
Qed.

End MoreGeometry.

Lemma Qsquare_opp (a b : Q) : (a - b) * (a - b) = (b - a) * (b - a).
Proof.
  destruct a as [an ad], b as [bn bd].
  unfold Qminus, Qplus, Qopp, Qmult. cbn [Qnum Qden]. f_equal.
  - ring.
  - now rewrite (Pos.mul_comm ad bd).
Qed.

(** X2: the distance is the same in both directions, for every [Math.sqrt]. *)
Theorem calculateDistance_sym (Math_sqrt : Q -> Q) (p1 p2 : Point) :
  calculateDistance Math_sqrt p1 p2 = calculateDistance Math_sqrt p2 p1.
Proof.
  unfold calculateDistance, Math_pow. f_equal.
  change (Qpower ?q 2) with (q * q).
  now rewrite (Qsquare_opp (px p2) (px p1)), (Qsquare_opp (py p2) (py p1)).
Qed.

(** X3: for a point inside a frame of positive size the normalized
    coordinates lie in [0, 1]. *)
Theorem normalizeCoordinates_unit (cx cy frameWidth frameHeight : Q) :
  0 < frameWidth -> 0 < frameHeight ->
  0 <= cx -> cx <= frameWidth -> 0 <= cy -> cy <= frameHeight ->
  let p := normalizeCoordinates cx cy frameWidth frameHeight in
  (0 <= px p /\ px p <= 1) /\ (0 <= py p /\ py p <= 1).
Proof.
  intros W H X0 X1 Y0 Y1. cbn [normalizeCoordinates px py].
  split; split.
  - apply Qle_shift_div_l; lra.
  - apply Qle_shift_div_r; lra.
  - apply Qle_shift_div_l; lra.
  - apply Qle_shift_div_r; lra.
Qed.

Lemma normalizeCoordinates_unit_witness :
  let p := normalizeCoordinates 320 120 640 480 in
  (0 <= px p /\ px p <= 1) /\ (0 <= py p /\ py p <= 1).
Proof.
  apply (normalizeCoordinates_unit 320 120 640 480); vm_compute; congruence.
Defined.

(** ** Quality assessor *)

Lemma confidence_sum_unit (l : list Landmark) (acc : Q) :
  (forall v, In v l -> 0 <= confidence v /\ confidence v <= 1) ->
  acc <= fold_left (fun sum v => sum + confidence v) l acc /\
  fold_left (fun sum v => sum + confidence v) l acc
    <= acc + number_of_nat (length l).
Proof.
  revert acc. induction l as [|v l IH]; intros acc B.
  - cbn [fold_left length]. change (number_of_nat 0) with 0. split; lra.
  - cbn [fold_left length]. rewrite number_of_nat_S.
    destruct (B v (or_introl eq_refl)) as [L U].
    destruct (IH (acc + confidence v) (fun w H => B w (or_intror H))) as [I1 I2].
    split; lra.
Qed.

(** X4: when the confidences of the visible landmarks lie in [0, 1], so
    does the pose confidence. *)
Theorem calculatePoseConfidence_bounds (landmarks : list Landmark) :
  (forall l, In l landmarks -> isVisible l = true ->
             0 <= confidence l /\ confidence l <= 1) ->
  0 <= calculatePoseConfidence landmarks /\
  calculatePoseConfidence landmarks <= 1.
Proof.
  intros B. unfold calculatePoseConfidence.
  destruct landmarks as [|a rest] eqn:EL; [split; lra|]. rewrite <- EL in *.
  cbv zeta.
  destruct (List.filter isVisible landmarks) as [|v vs] eqn:EF; [split; lra|].
  destruct (confidence_sum_unit (v :: vs) 0) as [S1 S2].
  { intros w Hw. rewrite <- EF in Hw. apply filter_In in Hw as [Hw Vw]. auto. }
  assert (P : 0 < number_of_nat (length (v :: vs))).
  { cbn [length]. rewrite number_of_nat_S.
    assert (N := number_of_nat_nonneg (length vs)). lra. }
  split.
  - apply Qle_shift_div_l; [exact P|lra].
  - apply Qle_shift_div_r; [exact P|lra].
Qed.

Lemma calculatePoseConfidence_bounds_witness :
  0 <= calculatePoseConfidence standing_frame /\
  calculatePoseConfidence standing_frame <= 1.
Proof.
  apply (calculatePoseConfidence_bounds standing_frame).
  intros l Hl _. simpl in Hl.
  repeat (destruct Hl as [<-|Hl]; [split; vm_compute; congruence|]).
  contradiction.
Defined.

Lemma filter_isVisible_idem (landmarks : list Landmark) :
  List.filter isVisible (List.filter isVisible landmarks)
  = List.filter isVisible landmarks.
Proof.
  induction landmarks as [|l rest IH]; [reflexivity|]. simpl.
  destruct (isVisible l) eqn:V; [|exact IH]. simpl. now rewrite V, IH.
Qed.

(** X5: landmarks that are not visible do not enter the pose confidence,
    whatever their confidence; with no visible landmark (or none at all)
    the pose confidence is 0. *)
Theorem calculatePoseConfidence_ignores_invisible (landmarks : list Landmark) :
  calculatePoseConfidence landmarks
  = calculatePoseConfidence (List.filter isVisible landmarks) /\
  (List.filter isVisible landmarks = [] -> calculatePoseConfidence landmarks = 0).
Proof.
  assert (E : calculatePoseConfidence landmarks
              = calculatePoseConfidence (List.filter isVisible landmarks)).
  { unfold calculatePoseConfidence at 2. cbv zeta.
    rewrite filter_isVisible_idem. unfold calculatePoseConfidence. cbv zeta.
    destruct landmarks as [|a rest]; [reflexivity|].
    now destruct (List.filter isVisible (a :: rest)). }
  split; [exact E|]. intros N. now rewrite E, N.
Qed.

(** The bijection between accepted landmarks and accepted keypoints, for
    any list of keypoint names without repetition. *)
Lemma accepted_count (cs : list string) (landmarks : list Landmark) :
  List.NoDup cs ->
  List.NoDup (map name landmarks) ->
  length (List.filter
            (fun l => includes cs (name l) && isVisible l
                      && Qgtb (confidence l) (1 # 2))
            landmarks)
  = length (List.filter (qualifies landmarks) cs).
Proof.
  intros NC ND. rewrite <- (length_map name).
  apply Permutation_length, Permutation.NoDup_Permutation.
  - now apply NoDup_map_filter.
  - now apply List.NoDup_filter.
  - intros n. rewrite in_map_iff, filter_In, qualifies_iff. split.
    + intros (l & E & Hl). apply filter_In in Hl as [Hl P].
      rewrite <- andb_assoc in P. apply andb_prop in P as [I U].
      apply includes_In in I. subst n. split; [assumption|]. eauto.
    + intros (I & l & Hl & E & U). exists l. split; [assumption|].
      apply filter_In. split; [assumption|].
      rewrite <- andb_assoc. apply andb_true_intro. split; [|exact U].
      apply includes_In. now rewrite E.
Qed.

Lemma bodyPartKeypoints_NoDup (bodyPart : BodyPart.t) :
  List.NoDup (bodyPartKeypoints bodyPart).
Proof.
  destruct bodyPart; unfold bodyPartKeypoints;
    repeat (constructor; [simpl; intuition discriminate|]); constructor.
Qed.

Lemma bodyPart_threshold (landmarks : list Landmark) (bodyPart : BodyPart.t) :
  List.NoDup (map name landmarks) ->
  (isBodyPartVisible landmarks bodyPart = true <->
   (2 <= length (List.filter (qualifies landmarks) (bodyPartKeypoints bodyPart)))%nat).
Proof.
  intros ND. unfold isBodyPartVisible. cbv zeta.
  rewrite (accepted_count _ landmarks (bodyPartKeypoints_NoDup bodyPart) ND).
  generalize (length (List.filter (qualifies landmarks) (bodyPartKeypoints bodyPart))).
  intros n. unfold Qgeb. rewrite Qle_bool_iff.
  destruct bodyPart; unfold number_of_nat, Qle; simpl; lia.
Qed.

(** X6: for a frame with at most one landmark per keypoint name, a body part
    is visible exactly when at least two of its keypoints are present,
    visible and above 0.5: two of the three head points, two of the four
    points of the torso, the arms or the legs. *)
Theorem isBodyPartVisible_iff (landmarks : list Landmark) (bodyPart : BodyPart.t) :
  List.NoDup (map name landmarks) ->
  (isBodyPartVisible landmarks bodyPart = true <->
   (2 <= length (List.filter (qualifies landmarks) (bodyPartKeypoints bodyPart)))%nat).
Proof.
  intros ND. unfold isBodyPartVisible. cbv zeta.
  rewrite (accepted_count _ landmarks (bodyPartKeypoints_NoDup bodyPart) ND).
  generalize (length (List.filter (qualifies landmarks) (bodyPartKeypoints bodyPart))).
  intros n. unfold Qgeb. rewrite Qle_bool_iff.
  destruct bodyPart; unfold number_of_nat, Qle; simpl; lia.
Qed.

Lemma isBodyPartVisible_iff_witness :
  isBodyPartVisible five_of_seven_frame BodyPart.torso = true <->
  (2 <= length (List.filter (qualifies five_of_seven_frame)
                            (bodyPartKeypoints BodyPart.torso)))%nat.
Proof.
  apply (isBodyPartVisible_iff five_of_seven_frame BodyPart.torso).
  exact five_of_seven_NoDup.
Defined.

(** X7: a person the gate reports as fully visible has a visible torso (for a
    frame with at most one landmark per keypoint name): of five accepted
    critical points at most three are the nose and the knees. *)
Theorem isPersonFullyVisible_torso (landmarks : list Landmark) :
  List.NoDup (map name landmarks) ->
  isPersonFullyVisible landmarks = true ->
  isBodyPartVisible landmarks BodyPart.torso = true.
Proof.
  intros ND V. apply (bodyPart_threshold landmarks BodyPart.torso ND).
  unfold isPersonFullyVisible in V. cbv zeta in V.
  apply visibility_threshold in V.
  rewrite (visibleCriticalPoints_count landmarks ND) in V.
  unfold criticalPoints in V. unfold bodyPartKeypoints.
  cbn [List.filter] in *.
  destruct (qualifies landmarks KeypointName.NOSE),
           (qualifies landmarks KeypointName.LEFT_SHOULDER),
           (qualifies landmarks KeypointName.RIGHT_SHOULDER),
           (qualifies landmarks KeypointName.LEFT_HIP),
           (qualifies landmarks KeypointName.RIGHT_HIP),
           (qualifies landmarks KeypointName.LEFT_KNEE),
           (qualifies landmarks KeypointName.RIGHT_KNEE);
    cbn [length] in *; lia.
Qed.

Lemma isPersonFullyVisible_torso_witness :
  isBodyPartVisible five_of_seven_frame BodyPart.torso = true.
Proof.
  apply (isPersonFullyVisible_torso five_of_seven_frame).
  - exact five_of_seven_NoDup.
  - reflexivity.
Defined.

(** ** Joint angle calculator, continued *)

Lemma getLandmark_qualifies (landmarks : list Landmark) (n : string) :
  is_Some (getLandmark landmarks n) <-> qualifies landmarks n = true.
Proof.
  unfold getLandmark, qualifies, usable.
  induction landmarks as [|l rest IH]; simpl.
  - split; [intros [? H]; discriminate H|discriminate].
  - rewrite <- andb_assoc.
    destruct (String.eqb (name l) n && (isVisible l && Qgtb (confidence l) (1 # 2)));
      simpl; [split; eauto|exact IH].
Qed.

Lemma getLandmark_filter_usable (landmarks : list Landmark) (n : string) :
  getLandmark (List.filter usable landmarks) n = getLandmark landmarks n.
Proof.
  unfold getLandmark, usable.
  induction landmarks as [|l rest IH]; simpl; [reflexivity|].
  destruct (isVisible l && Qgtb (confidence l) (1 # 2)) eqn:U; simpl.
  - rewrite <- andb_assoc, U, IH. reflexivity.
  - rewrite <- andb_assoc, U, andb_false_r. exact IH.
Qed.

Lemma Object_keys_set (o : JointAngles) (k : string) (v : Q) :
  Object_keys (obj_set o k v)
  = if includes (Object_keys o) k then Object_keys o else (Object_keys o ++ [k])%list.
Proof.
  unfold includes. induction o as [|[k0 v0] o IH]; simpl; [reflexivity|].
  rewrite (String.eqb_sym k k0).
  destruct (String.eqb k0 k) eqn:E; simpl; [reflexivity|].
  rewrite IH. now destruct (existsb (String.eqb k) (Object_keys o)).
Qed.

Lemma Object_keys_set_fresh (o : JointAngles) (k : string) (v : Q) :
  ~ In k (Object_keys o) -> Object_keys (obj_set o k v) = (Object_keys o ++ [k])%list.
Proof.
  intros N. rewrite Object_keys_set.
  destruct (includes (Object_keys o) k) eqn:I; [|reflexivity].
  apply includes_In in I. contradiction.
Qed.

Section MoreCalculator.

Variable Math_atan2 : Q -> Q -> Q.

(** X8: the result has an entry for a joint exactly when the joint is one of
    the nine computed ones and each keypoint it is computed from is
    present, visible and above 0.5. *)
Theorem calculateJointAngles_present_iff (landmarks : list Landmark)
    (joint : string) :
  is_Some (obj_get (calculateJointAngles Math_atan2 landmarks) joint) <->
  In joint computed_joints /\
  forall n, In n (defining_landmarks joint) -> qualifies landmarks n = true.
Proof.
  split.
  - intros [w G]. apply calculateJointAngles_get_inv in G as (J & D & _).
    split; [exact J|]. intros n Hn. apply getLandmark_qualifies. auto.
  - intros [J D]. apply calculateJointAngles_computes; [exact J|].
    intros n Hn. apply getLandmark_qualifies. auto.
Qed.

(** X9: landmarks that are not visible or not above 0.5 have no influence at
    all: dropping them from the frame gives the same angle map. *)
Theorem calculateJointAngles_ignores_unusable (landmarks : list Landmark) :
  calculateJointAngles Math_atan2 (List.filter usable landmarks)
  = calculateJointAngles Math_atan2 landmarks.
Proof.
  unfold calculateJointAngles. cbv zeta.
  now rewrite !getLandmark_filter_usable.
Qed.

(** X10: every angle in the map lies in [0, 180], provided [Math.atan2] stays
    within [-Math.PI, Math.PI]. *)
Theorem calculateJointAngles_values_range (landmarks : list Landmark)
    (joint : string) (w : Q) :
  (forall v u, - Math_PI <= Math_atan2 v u /\ Math_atan2 v u <= Math_PI) ->
  obj_get (calculateJointAngles Math_atan2 landmarks) joint = Some w ->
  0 <= w /\ w <= 180.
Proof.
  intros R G.
  apply calculateJointAngles_get_inv in G as (_ & _ & p1 & p2 & p3 & ->).
  rewrite calculateAngle_unrounded.
  destruct (unroundedAngle_range Math_atan2 p1 p2 p3 R) as [L U].
  apply (Math_round_range _ 0 180); assumption.
Qed.

Lemma keys_set_angle3_sublist (o : JointAngles) (k : string)
    (a b c : option Landmark) (done : list string) :
  sublist (Object_keys o) done -> ~ In k done ->
  sublist (Object_keys (set_angle3 Math_atan2 o k a b c)) (done ++ [k])%list.
Proof.
  intros S N. unfold set_angle3.
  assert (W : sublist (Object_keys o) (done ++ [k])%list)
    by (apply sublist_inserts_r, S).
  destruct a, b, c; try exact W.
  rewrite Object_keys_set_fresh.
  - apply sublist_app; [exact S|reflexivity].
  - intros I. apply N. apply list_elem_of_In.
    apply (elem_of_sublist _ _ _ (proj2 (list_elem_of_In _ _) I) S).
Qed.

Lemma keys_set_spine_sublist (o : JointAngles)
    (a b c d : option Landmark) (done : list string) :
  sublist (Object_keys o) done -> ~ In "spine" done ->
  sublist (Object_keys (set_spine Math_atan2 o a b c d)) (done ++ ["spine"])%list.
Proof.
  intros S N. unfold set_spine.
  assert (W : sublist (Object_keys o) (done ++ ["spine"])%list)
    by (apply sublist_inserts_r, S).
  destruct a, b, c, d; try exact W.
  rewrite Object_keys_set_fresh.
  - apply sublist_app; [exact S|reflexivity].
  - intros I. apply N. apply list_elem_of_In.
    apply (elem_of_sublist _ _ _ (proj2 (list_elem_of_In _ _) I) S).
Qed.

(** X11: the keys of the result always come in the order of the blocks of the
    source, each at most once: [Object.keys] of an angle map is a
    subsequence of the nine computed joints. *)
Theorem calculateJointAngles_keys_order (landmarks : list Landmark) :
  sublist (Object_keys (calculateJointAngles Math_atan2 landmarks)) computed_joints /\
  List.NoDup (Object_keys (calculateJointAngles Math_atan2 landmarks)).
Proof.
  assert (S : sublist (Object_keys (calculateJointAngles Math_atan2 landmarks))
                      computed_joints).
  { unfold calculateJointAngles. cbv zeta.
    apply (keys_set_spine_sublist _ _ _ _ _
             ["leftElbow"; "rightElbow"; "leftShoulder"; "rightShoulder";
              "leftKnee"; "rightKnee"; "leftHip"; "rightHip"]);
      [|simpl; intuition discriminate].
    apply (keys_set_angle3_sublist _ _ _ _ _
             ["leftElbow"; "rightElbow"; "leftShoulder"; "rightShoulder";
              "leftKnee"; "rightKnee"; "leftHip"]);
      [|simpl; intuition discriminate].
    apply (keys_set_angle3_sublist _ _ _ _ _
             ["leftElbow"; "rightElbow"; "leftShoulder"; "rightShoulder";
              "leftKnee"; "rightKnee"]);
      [|simpl; intuition discriminate].
    apply (keys_set_angle3_sublist _ _ _ _ _
             ["leftElbow"; "rightElbow"; "leftShoulder"; "rightShoulder";
              "leftKnee"]);
      [|simpl; intuition discriminate].
    apply (keys_set_angle3_sublist _ _ _ _ _
             ["leftElbow"; "rightElbow"; "leftShoulder"; "rightShoulder"]);
      [|simpl; intuition discriminate].
    apply (keys_set_angle3_sublist _ _ _ _ _
             ["leftElbow"; "rightElbow"; "leftShoulder"]);
      [|simpl; intuition discriminate].
    apply (keys_set_angle3_sublist _ _ _ _ _ ["leftElbow"; "rightElbow"]);
      [|simpl; intuition discriminate].
    apply (keys_set_angle3_sublist _ _ _ _ _ ["leftElbow"]);
      [|simpl; intuition discriminate].
    apply (keys_set_angle3_sublist _ _ _ _ _ []); [constructor|simpl; tauto]. }
  split; [exact S|].
  apply NoDup_ListNoDup. refine (sublist_NoDup _ _ _ S).
  apply NoDup_ListNoDup. unfold computed_joints. simpl.
  repeat (constructor; [simpl; intuition discriminate|]). constructor.
Qed.

End MoreCalculator.

Lemma calculateJointAngles_values_range_witness :
  obj_get (calculateJointAngles atan2_coarse standing_frame) "leftElbow" = Some 90
  /\ 0 <= 90 /\ 90 <= 180.
Proof.
  split; [vm_compute; reflexivity|].
  apply (calculateJointAngles_values_range atan2_coarse standing_frame "leftElbow" 90).
  - exact atan2_coarse_range.
  - vm_compute. reflexivity.
Defined.

(** ** Landmark smoother, continued *)

Lemma smooth_concat (this : LandmarkSmoother) (front back : list Landmark) :
  smooth this (front ++ back)
  = ((fst (smooth this front)
      ++ fst (smooth (snd (smooth this front)) back))%list,
     snd (smooth (snd (smooth this front)) back)).
Proof.
  revert this. induction front as [|c rest IH]; intros this.
  - simpl. now destruct (smooth this back).
  - rewrite <- app_comm_cons, !smooth_cons, IH. reflexivity.
Qed.

(** X12: smoothing an array is smoothing its front part and then, with the
    history that leaves, its back part: a name repeated inside one array
    is treated like the same keypoint in successive frames. *)
Theorem smooth_app (this : LandmarkSmoother) (front back : list Landmark) :
  smooth this (front ++ back)
  = ((fst (smooth this front)
      ++ fst (smooth (snd (smooth this front)) back))%list,
     snd (smooth (snd (smooth this front)) back)).
Proof.
  revert this. induction front as [|c rest IH]; intros this.
  - simpl. now destruct (smooth this back).
  - rewrite <- app_comm_cons, !smooth_cons, IH. reflexivity.
Qed.

Lemma smooth_step_observed (this : LandmarkSmoother) (current : Landmark) :
  observed (fst (smooth_step this current)) = observed current.
Proof.
  unfold smooth_step. now destruct (previousLandmarks this !! name current).
Qed.

Lemma smooth_observed (this : LandmarkSmoother) (frame : list Landmark) :
  map observed (fst (smooth this frame)) = map observed frame.
Proof.
  revert this. induction frame as [|c rest IH]; intros this; [reflexivity|].
  rewrite smooth_cons. cbn [fst map]. now rewrite smooth_step_observed, IH.
Qed.

(** X13: smoothing emits one landmark per raw landmark, in the same order and
    with the same name, visibility flag and confidence, for any array and
    any history; it stores every name of the array and forgets none, and a
    keypoint that is missing from the array keeps its stored landmark. *)
Theorem smooth_shape (this : LandmarkSmoother) (frame : list Landmark) :
  map observed (fst (smooth this frame)) = map observed frame /\
  length (fst (smooth this frame)) = length frame /\
  dom (previousLandmarks (snd (smooth this frame)))
  = dom (previousLandmarks this) ∪ list_to_set (map name frame) /\
  forall n, ~ In n (map name frame) ->
            previousLandmarks (snd (smooth this frame)) !! n
            = previousLandmarks this !! n.
Proof.
  split; [apply smooth_observed|]. split.
  { rewrite <- (length_map observed), smooth_observed. apply length_map. }
  split; [|intros n; apply smooth_other].
  revert this. induction frame as [|c rest IH]; intros this.
  - simpl. now rewrite (right_id_L ∅ (∪)).
  - rewrite smooth_cons. cbn [snd]. rewrite IH.
    assert (D : dom (previousLandmarks (snd (smooth_step this c)))
                = {[name c]} ∪ dom (previousLandmarks this)).
    { unfold smooth_step.
      destruct (previousLandmarks this !! name c); cbn [snd previousLandmarks];
        apply dom_insert_L. }
    rewrite D. simpl.
    rewrite (comm_L (∪) {[name c]} (dom (previousLandmarks this))).
    now rewrite (assoc_L (∪)).
Qed.

Ltac case_Qle a b :=
  let E := fresh "E" in
  destruct (Qle_bool a b) eqn:E;
  [ apply Qle_bool_iff in E
  | apply not_true_iff_false in E; rewrite Qle_bool_iff in E;
    apply Qnot_le_lt in E ].

Lemma new_alpha_range (a : Q) :
  0 <= alpha (new_LandmarkSmoother a) /\ alpha (new_LandmarkSmoother a) <= 1.
Proof.
  cbn [new_LandmarkSmoother alpha]. unfold Math_max, Math_min.
  case_Qle 1 a; [case_Qle 0 1|case_Qle 0 a]; split; lra.
Qed.

Lemma blend_unit (t u v : Q) :
  0 <= t -> t <= 1 -> 0 <= u -> u <= 1 -> 0 <= v -> v <= 1 ->
  0 <= t * u + (1 - t) * v /\ t * u + (1 - t) * v <= 1.
Proof. intros. split; nra. Qed.

(** The emitted landmark at position [i] for a keypoint with stored
    previous value, in terms of the loop body. *)
Lemma smooth_at_stored (this : LandmarkSmoother) (frame : list Landmark)
    (i : nat) (cur prev : Landmark) :
  List.NoDup (map name frame) ->
  frame !! i = Some cur ->
  previousLandmarks this !! name cur = Some prev ->
  exists sm : Landmark,
    fst (smooth this frame) !! i = Some sm /\
    previousLandmarks (snd (smooth this frame)) !! name cur = Some sm /\
    x sm = alpha this * x cur + (1 - alpha this) * x prev /\
    y sm = alpha this * y cur + (1 - alpha this) * y prev.
Proof.
  intros ND Hi Hp. destruct (smooth_at this frame i cur ND Hi) as (sm & O & S & E).
  exists sm. rewrite Hp in E. unfold smooth_step in E.
  cbn [previousLandmarks alpha] in E. rewrite lookup_singleton_eq in E.
  cbn [fst] in E. subst sm. auto.
Qed.

(** X14: a smoother built by the constructor keeps normalized positions
    normalized, whatever factor it was given: when the raw and the stored
    coordinates of a keypoint lie in [0, 1], so do the smoothed ones
    (frames with at most one landmark per keypoint name). *)
Theorem smooth_stays_normalized (a : Q) (this : LandmarkSmoother)
    (frame : list Landmark) (i : nat) (cur prev : Landmark) :
  alpha this = alpha (new_LandmarkSmoother a) ->
  List.NoDup (map name frame) ->
  frame !! i = Some cur ->
  previousLandmarks this !! name cur = Some prev ->
  (0 <= x cur /\ x cur <= 1) -> (0 <= y cur /\ y cur <= 1) ->
  (0 <= x prev /\ x prev <= 1) -> (0 <= y prev /\ y prev <= 1) ->
  exists sm : Landmark,
    fst (smooth this frame) !! i = Some sm /\
    (0 <= x sm /\ x sm <= 1) /\ (0 <= y sm /\ y sm <= 1).
Proof.
  intros A ND Hi Hp [CX0 CX1] [CY0 CY1] [PX0 PX1] [PY0 PY1].
  destruct (smooth_at_stored this frame i cur prev ND Hi Hp)
    as (sm & O & _ & EX & EY).
  destruct (new_alpha_range a) as [A0 A1]. rewrite <- A in A0, A1.
  exists sm. split; [exact O|]. rewrite EX, EY.
  split; apply blend_unit; assumption.
Qed.

Lemma smooth_stays_normalized_witness :
  exists sm : Landmark,
    fst (smooth running_smoother wrist_frame) !! 0%nat = Some sm /\
    (0 <= x sm /\ x sm <= 1) /\ (0 <= y sm /\ y sm <= 1).
Proof.
  apply (smooth_stays_normalized (3 # 10) running_smoother wrist_frame 0
           (keypoint KeypointName.LEFT_WRIST 64 55 (9 # 10) false)
           (keypoint KeypointName.LEFT_WRIST 60 50 (8 # 10) true)).
  - reflexivity.
  - repeat constructor. simpl. tauto.
  - reflexivity.
  - reflexivity.
  - split; vm_compute; congruence.
  - split; vm_compute; congruence.
  - split; vm_compute; congruence.
  - split; vm_compute; congruence.
Defined.

(** X15: the factor is clamped into [0, 1] by the constructor: a factor of 1
    or more makes the smoother return every raw position as it is, a
    factor of 0 or less freezes each keypoint at its stored position. *)
Theorem smooth_clamped_factor (a : Q) (this : LandmarkSmoother)
    (frame : list Landmark) (i : nat) (cur prev : Landmark) :
  alpha this = alpha (new_LandmarkSmoother a) ->
  List.NoDup (map name frame) ->
  frame !! i = Some cur ->
  previousLandmarks this !! name cur = Some prev ->
  exists sm : Landmark,
    fst (smooth this frame) !! i = Some sm /\
    (1 <= a -> x sm == x cur /\ y sm == y cur) /\
    (a <= 0 -> x sm == x prev /\ y sm == y prev).
Proof.
  intros A ND Hi Hp.
  destruct (smooth_at_stored this frame i cur prev ND Hi Hp)
    as (sm & O & _ & EX & EY).
  exists sm. split; [exact O|]. rewrite EX, EY, A.
  cbn [new_LandmarkSmoother alpha]. unfold Math_max, Math_min.
  case_Qle 1 a; [case_Qle 0 1|case_Qle 0 a]; (split; intros H);
    try (exfalso; lra); try (split; lra).
  assert (Z : a == 0) by lra. rewrite Z. split; lra.
Qed.

Lemma smooth_clamped_factor_witness :
  exists sm : Landmark,
    fst (smooth {| previousLandmarks := previousLandmarks running_smoother;
                   alpha := 1 |} wrist_frame) !! 0%nat = Some sm /\
    (1 <= 5 -> x sm == 64 # 100 /\ y sm == 55 # 100) /\
    (5 <= 0 -> x sm == 60 # 100 /\ y sm == 50 # 100).
Proof.
  apply (smooth_clamped_factor 5
           {| previousLandmarks := previousLandmarks running_smoother; alpha := 1 |}
           wrist_frame 0
           (keypoint KeypointName.LEFT_WRIST 64 55 (9 # 10) false)
           (keypoint KeypointName.LEFT_WRIST 60 50 (8 # 10) true)).
  - reflexivity.
  - repeat constructor. simpl. tauto.
  - reflexivity.
  - reflexivity.
Defined.

Lemma smooth_repeat_alpha (n : nat) (this : LandmarkSmoother)
    (frame : list Landmark) :
  alpha (snd (smooth_repeat n this frame)) = alpha this.
Proof.
  induction n as [|n IH]; [reflexivity|].
  cbn [smooth_repeat]. now rewrite smooth_alpha.
Qed.

(** X16: the history is carried from one call to the next: when the same
    frame is fed again and again, the landmark emitted by a call is the
    one stored for the next, and each call blends the raw landmark with
    the landmark the call before emitted (the stored one at the first
    call), with the factor the smoother was built with (frames with at
    most one landmark per keypoint name). *)
Theorem smooth_repeat_recurrence (n : nat) (this : LandmarkSmoother)
    (frame : list Landmark) (i : nat) (cur prev : Landmark) :
  List.NoDup (map name frame) ->
  frame !! i = Some cur ->
  previousLandmarks this !! name cur = Some prev ->
  exists before sm : Landmark,
    previousLandmarks (snd (smooth_repeat n this frame)) !! name cur
      = Some before /\
    (n = 0%nat -> before = prev) /\
    (forall k : nat, n = S k ->
                     fst (smooth_repeat n this frame) !! i = Some before) /\
    fst (smooth_repeat (S n) this frame) !! i = Some sm /\
    previousLandmarks (snd (smooth_repeat (S n) this frame)) !! name cur
      = Some sm /\
    x sm = alpha this * x cur + (1 - alpha this) * x before /\
    y sm = alpha this * y cur + (1 - alpha this) * y before.
Proof.
  intros ND Hi Hp.
  assert (R : exists before : Landmark,
            previousLandmarks (snd (smooth_repeat n this frame)) !! name cur
              = Some before /\
            (n = 0%nat -> before = prev) /\
            (forall k : nat, n = S k ->
               fst (smooth_repeat n this frame) !! i = Some before)).
  { induction n as [|n IH].
    - exists prev. split; [exact Hp|]. split; [reflexivity|discriminate].
    - destruct IH as (b & Sb & _ & _).
      change (smooth_repeat (S n) this frame)
        with (smooth (snd (smooth_repeat n this frame)) frame).
      destruct (smooth_at_stored (snd (smooth_repeat n this frame))
                  frame i cur b ND Hi Sb) as (sm & O & St & _ & _).
      exists sm. split; [exact St|]. split; [discriminate|]. intros k _. exact O. }
  destruct R as (before & Sb & R0 & RS).
  change (smooth_repeat (S n) this frame)
    with (smooth (snd (smooth_repeat n this frame)) frame).
  destruct (smooth_at_stored (snd (smooth_repeat n this frame))
              frame i cur before ND Hi Sb) as (sm & O & St & EX & EY).
  rewrite smooth_repeat_alpha in EX, EY.
  exists before, sm. auto 10.
Qed.

Lemma smooth_repeat_recurrence_witness :
  exists before sm : Landmark,
    previousLandmarks (snd (smooth_repeat 2 running_smoother wrist_frame))
      !! KeypointName.LEFT_WRIST = Some before /\
    (2%nat = 0%nat -> before = keypoint KeypointName.LEFT_WRIST 60 50 (8 # 10) true) /\
    (forall k : nat, 2%nat = S k ->
       fst (smooth_repeat 2 running_smoother wrist_frame) !! 0%nat = Some before) /\
    fst (smooth_repeat 3 running_smoother wrist_frame) !! 0%nat = Some sm /\
    previousLandmarks (snd (smooth_repeat 3 running_smoother wrist_frame))
      !! KeypointName.LEFT_WRIST = Some sm /\
    x sm = (3 # 10) * (64 # 100) + (1 - (3 # 10)) * x before /\
    y sm = (3 # 10) * (55 # 100) + (1 - (3 # 10)) * y before.
Proof.
  apply (smooth_repeat_recurrence 2 running_smoother wrist_frame 0
           (keypoint KeypointName.LEFT_WRIST 64 55 (9 # 10) false)
           (keypoint KeypointName.LEFT_WRIST 60 50 (8 # 10) true)).
  - repeat constructor. simpl. tauto.
  - reflexivity.
  - reflexivity.
Defined.

(** ** The module-wide smoother, continued *)

Lemma install_coherent (a : Q) (m : ModuleState) :
  module_wf (snd (install_smoother a m)) /\
  module_coherent (snd (install_smoother a m)).
Proof.
  unfold module_wf, module_coherent, install_smoother.
  cbn [snd smootherInstance heap currentAlpha]. split.
  - rewrite length_app. simpl. lia.
  - exists (new_LandmarkSmoother a). split; [|reflexivity].
    apply list_lookup_middle. reflexivity.
Qed.

Lemma getSmoother_cases (a : Q) (m : ModuleState) :
  getSmoother a m = install_smoother a m \/
  (exists r, smootherInstance m = Some r /\ getSmoother a m = (r, m)).
Proof.
  unfold getSmoother. destruct (smootherInstance m) as [r|]; [|now left].
  destruct (negb (Qeq_bool (currentAlpha m) a)); [now left|right; eauto].
Qed.

Lemma getSmoother_keeps (a : Q) (m : ModuleState) :
  module_wf m -> module_coherent m ->
  module_wf (snd (getSmoother a m)) /\
  module_coherent (snd (getSmoother a m)) /\
  smootherInstance (snd (getSmoother a m)) = Some (fst (getSmoother a m)).
Proof.
  intros W C. destruct (getSmoother_cases a m) as [E|(r & I & E)]; rewrite E.
  - destruct (install_coherent a m). auto.
  - cbn [fst snd]. auto.
Qed.

(** What [applySmoothing] does with smoothing enabled, from a coherent
    state: the installed smoother is run on the frame and written back. *)
Lemma applySmoothing_runs (landmarks : list Landmark) (config : PoseConfig)
    (m : ModuleState) :
  module_wf m -> module_coherent m ->
  enableSmoothing config = true ->
  exists (r : nat) (s : LandmarkSmoother) (m1 : ModuleState),
    getSmoother (smoothingFactor config) m = (r, m1) /\
    heap m1 !! r = Some s /\
    smootherInstance m1 = Some r /\
    alpha s = Math_max 0 (Math_min 1 (currentAlpha m1)) /\
    applySmoothing landmarks config m
    = (fst (smooth s landmarks),
       {| heap := <[r := snd (smooth s landmarks)]> (heap m1);
          smootherInstance := Some r;
          currentAlpha := currentAlpha m1 |}).
Proof.
  intros W C En.
  destruct (getSmoother_keeps (smoothingFactor config) m W C) as (W1 & C1 & I1).
  destruct (getSmoother (smoothingFactor config) m) as [r m1] eqn:G.
  cbn [fst snd] in *. unfold module_coherent in C1. rewrite I1 in C1.
  destruct C1 as (s & Hs & As).
  exists r, s, m1. repeat split; try assumption.
  unfold applySmoothing. rewrite En. cbn [negb]. rewrite G, Hs, I1.
  now destruct (smooth s landmarks).
Qed.

(** X17: the module state stays well formed: from the initial state, every
    [getSmoother] and every [applySmoothing] leaves the installed
    reference pointing at a smoother in the store whose factor is the
    clamped [currentAlpha], and no allocated smoother is ever removed. *)
Theorem module_invariant (m : ModuleState) (a : Q)
    (landmarks : list Landmark) (config : PoseConfig) :
  module_wf m -> module_coherent m ->
  (module_wf initial_module /\ module_coherent initial_module) /\
  (module_wf (snd (getSmoother a m)) /\
   module_coherent (snd (getSmoother a m)) /\
   (length (heap m) <= length (heap (snd (getSmoother a m))))%nat) /\
  (module_wf (snd (applySmoothing landmarks config m)) /\
   module_coherent (snd (applySmoothing landmarks config m)) /\
   (length (heap m) <= length (heap (snd (applySmoothing landmarks config m))))%nat).
Proof.
  intros W C. split; [split; exact I|].
  assert (L : forall b, (length (heap m) <= length (heap (snd (getSmoother b m))))%nat).
  { intros b. destruct (getSmoother_cases b m) as [E|(r & _ & E)]; rewrite E.
    - cbn. rewrite length_app. lia.
    - cbn. lia. }
  split.
  - destruct (getSmoother_keeps a m W C) as (W1 & C1 & _). auto.
  - destruct (enableSmoothing config) eqn:En.
    + destruct (applySmoothing_runs landmarks config m W C En)
        as (r & s & m1 & G & Hs & I1 & As & E).
      rewrite E. cbn [snd].
      pose proof (L (smoothingFactor config)) as L1. rewrite G in L1.
      cbn [snd] in L1.
      assert (B : (r < length (heap m1))%nat) by (apply lookup_lt_is_Some; eauto).
      unfold module_wf, module_coherent.
      cbn [smootherInstance heap currentAlpha]. rewrite length_insert.
      repeat split; [exact B| |exact L1].
      exists (snd (smooth s landmarks)). split.
      * now apply list_lookup_insert_eq.
      * now rewrite smooth_alpha.
    + unfold applySmoothing. rewrite En. cbn. auto.
Qed.

Lemma running_module_coherent :
  module_wf running_module /\ module_coherent running_module.
Proof.
  split.
  - unfold module_wf. simpl. lia.
  - exists running_smoother. split; reflexivity.
Qed.

Lemma module_invariant_witness :
  (module_wf initial_module /\ module_coherent initial_module) /\
  (module_wf (snd (getSmoother (1 # 2) running_module)) /\
   module_coherent (snd (getSmoother (1 # 2) running_module)) /\
   (length (heap running_module)
    <= length (heap (snd (getSmoother (1 # 2) running_module))))%nat) /\
  (module_wf (snd (applySmoothing wrist_frame
                     {| enableSmoothing := true; smoothingFactor := 3 # 10 |}
                     running_module)) /\
   module_coherent (snd (applySmoothing wrist_frame
                     {| enableSmoothing := true; smoothingFactor := 3 # 10 |}
                     running_module)) /\
   (length (heap running_module)
    <= length (heap (snd (applySmoothing wrist_frame
                     {| enableSmoothing := true; smoothingFactor := 3 # 10 |}
                     running_module))))%nat).
Proof.
  apply (module_invariant running_module (1 # 2) wrist_frame
           {| enableSmoothing := true; smoothingFactor := 3 # 10 |});
    apply running_module_coherent.
Defined.

(** X18: two calls of [applySmoothing] with one configuration (smoothing
    enabled) are one call on the two frames put end to end: the second
    call smooths against the history the first one left in the shared
    smoother. *)
Theorem applySmoothing_app (first second : list Landmark)
    (config : PoseConfig) (m : ModuleState) :
  module_wf m -> module_coherent m ->
  enableSmoothing config = true ->
  applySmoothing (first ++ second) config m
  = ((fst (applySmoothing first config m)
      ++ fst (applySmoothing second config (snd (applySmoothing first config m))))%list,
     snd (applySmoothing second config (snd (applySmoothing first config m)))).
Proof.
  intros W C En.
  destruct (applySmoothing_runs first config m W C En)
    as (r & s & m1 & G & Hs & I1 & As & E1).
  destruct (applySmoothing_runs (first ++ second) config m W C En)
    as (r' & s' & m1' & G' & Hs' & I1' & As' & E12).
  rewrite G in G'. injection G' as <- <-. rewrite Hs in Hs'. injection Hs' as <-.
  destruct (getSmoother_installs m m1 (smoothingFactor config) r W G)
    as (_ & Ea & B).
  rewrite E12, E1. cbn [fst snd].
  set (m' := {| heap := <[r := snd (smooth s first)]> (heap m1);
                smootherInstance := Some r;
                currentAlpha := currentAlpha m1 |}).
  assert (G2 : getSmoother (smoothingFactor config) m' = (r, m'))
    by (now apply getSmoother_same).
  unfold applySmoothing. rewrite En. cbn [negb]. rewrite G2.
  cbn [heap m' smootherInstance currentAlpha].
  rewrite list_lookup_insert_eq by exact B.
  rewrite smooth_concat. cbn [fst snd].
  destruct (smooth (snd (smooth s first)) second) as [out2 s2].
  cbn [fst snd]. now rewrite list_insert_insert_eq.
Qed.

Lemma applySmoothing_app_witness :
  applySmoothing (wrist_frame ++ wrist_frame)
    {| enableSmoothing := true; smoothingFactor := 3 # 10 |} running_module
  = ((fst (applySmoothing wrist_frame
             {| enableSmoothing := true; smoothingFactor := 3 # 10 |} running_module)
      ++ fst (applySmoothing wrist_frame
                {| enableSmoothing := true; smoothingFactor := 3 # 10 |}
                (snd (applySmoothing wrist_frame
                        {| enableSmoothing := true; smoothingFactor := 3 # 10 |}
                        running_module))))%list,
     snd (applySmoothing wrist_frame
            {| enableSmoothing := true; smoothingFactor := 3 # 10 |}
            (snd (applySmoothing wrist_frame
                    {| enableSmoothing := true; smoothingFactor := 3 # 10 |}
                    running_module)))).
Proof.
  apply (applySmoothing_app wrist_frame wrist_frame
           {| enableSmoothing := true; smoothingFactor := 3 # 10 |} running_module).
  - apply running_module_coherent.
  - apply running_module_coherent.
  - reflexivity.
Defined.

(** X19: [getSmoother] compares the factors as given, not as clamped: after a
    call with a factor of 1 or more, a call with a different factor of 1
    or more still installs a new smoother with empty history, although
    both smoothers work with alpha = 1. *)
Theorem getSmoother_clamped_replace (m m1 : ModuleState) (a a' : Q) (r : nat) :
  module_wf m -> module_coherent m ->
  getSmoother a m = (r, m1) ->
  1 <= a -> 1 <= a' -> ~ a' == a ->
  exists (r' : nat) (m2 : ModuleState) (s s' : LandmarkSmoother),
    getSmoother a' m1 = (r', m2) /\ r' <> r /\
    heap m2 !! r = Some s /\ heap m2 !! r' = Some s' /\
    alpha s = 1 /\ alpha s' = 1 /\ previousLandmarks s' = ∅.
Proof.
  intros W C G A A' NE.
  destruct (getSmoother_keeps a m W C) as (W1 & C1 & I1).
  rewrite G in W1, C1, I1. cbn [fst snd] in *.
  destruct (getSmoother_installs m m1 a r W G) as (_ & Ea & B).
  unfold module_coherent in C1. rewrite I1 in C1. destruct C1 as (s & Hs & As).
  assert (Ch : getSmoother a' m1 = install_smoother a' m1).
  { apply (getSmoother_changed m1 a' r I1). intros E. apply NE.
    now rewrite <- E, Ea. }
  exists (length (heap m1)), (snd (install_smoother a' m1)), s,
         (new_LandmarkSmoother a').
  split; [rewrite Ch; reflexivity|]. split; [lia|].
  cbn [install_smoother snd heap]. split; [now apply lookup_app_l_Some|].
  split; [now apply list_lookup_middle|].
  assert (One : forall b, 1 <= b -> Math_max 0 (Math_min 1 b) = 1).
  { intros b Hb. unfold Math_min. apply Qle_bool_iff in Hb. now rewrite Hb. }
  split; [|split; [apply One, A'|reflexivity]].
  rewrite As. apply One. now rewrite Ea.
Qed.

Lemma getSmoother_clamped_replace_witness :
  exists (r' : nat) (m2 : ModuleState) (s s' : LandmarkSmoother),
    getSmoother 2 (snd (getSmoother (3 # 2) initial_module)) = (r', m2) /\
    r' <> 0%nat /\
    heap m2 !! 0%nat = Some s /\ heap m2 !! r' = Some s' /\
    alpha s = 1 /\ alpha s' = 1 /\ previousLandmarks s' = ∅.
Proof.
  apply (getSmoother_clamped_replace initial_module
           (snd (getSmoother (3 # 2) initial_module)) (3 # 2) 2 0).
  - exact I.
  - exact I.
  - reflexivity.
  - vm_compute; congruence.
  - vm_compute; congruence.
  - vm_compute; congruence.
Defined.

(** ** Pose comparator, continued *)

Lemma Math_abs_swap (r d : Q) : Math_abs (r - d) == Qabs (d - r).
Proof.
  unfold Math_abs. rewrite <- (Qabs_opp (d - r)). apply Qabs_wd. lra.
Qed.


Section MoreComparator.

Variables (detectedAngles referenceAngles : JointAngles) (tolerance : Q).




End MoreComparator.


Lemma fold_left_ext_in {A B : Type} (f g : A -> B -> A) (l : list B) (a : A) :
  (forall acc b, In b l -> f acc b = g acc b) ->
  fold_left f l a = fold_left g l a.
Proof.
  revert a. induction l as [|b l IH]; intros a H; [reflexivity|].
  cbn [fold_left]. rewrite (H a b (or_introl eq_refl)).
  apply IH. intros acc b' Hb. apply H. now right.
Qed.

(** X21: the score reads the detected map only at the keys of the reference:
    joints detected beyond those of the reference never change it. *)
Theorem comparePoseAngles_reference_keys (detected detected' reference : JointAngles)
    (t : Q) :
  (forall k, In k (Object_keys reference) ->
             obj_get detected k = obj_get detected' k) ->
  comparePoseAngles detected reference t = comparePoseAngles detected' reference t.
Proof.
  intros H. unfold comparePoseAngles. cbv zeta.
  rewrite (fold_left_ext_in (compare_step detected reference t)
             (compare_step detected' reference t)); [reflexivity|].
  intros [m c] k Hk. unfold compare_step. now rewrite (H k Hk).
Qed.

Lemma comparePoseAngles_reference_keys_witness :
  comparePoseAngles [("leftKnee", 70); ("spine", 12)] [("leftKnee", 90)] 15
  = comparePoseAngles [("leftKnee", 70)] [("leftKnee", 90)] 15.
Proof.
  apply (comparePoseAngles_reference_keys
           [("leftKnee", 70); ("spine", 12)] [("leftKnee", 70)] [("leftKnee", 90)] 15).
  intros k [<-|[]]. reflexivity.
Defined.

Lemma feedback_step_app (detected reference : JointAngles) (t : Q)
    (feedback : list string) (k : string) :
  feedback_step detected reference t feedback k
  = (feedback ++ feedback_step detected reference t [] k)%list.
Proof.
  unfold feedback_step.
  destruct (obj_get reference k) as [r|]; [|now rewrite app_nil_r].
  destruct (obj_get detected k) as [d|]; [|now rewrite app_nil_r].
  cbv zeta. destruct (Qgtb (Math_abs (d - r)) t); [|now rewrite app_nil_r].
  now destruct (Qgtb (d - r) 0).
Qed.

(** The feedback is the concatenation, in the order of the reference
    keys, of what each key contributes on its own. *)
Lemma generatePoseFeedback_flat (detected reference : JointAngles) (t : Q) :
  generatePoseFeedback detected reference t
  = flat_map (feedback_step detected reference t []) (Object_keys reference).
Proof.
  unfold generatePoseFeedback. cbv zeta.
  assert (G : forall ks fb,
             fold_left (feedback_step detected reference t) ks fb
             = (fb ++ flat_map (feedback_step detected reference t []) ks)%list).
  { induction ks as [|k ks IH]; intros fb.
    - simpl. now rewrite app_nil_r.
    - cbn [fold_left flat_map]. rewrite IH, feedback_step_app.
      now rewrite <- app_assoc. }
  now rewrite G.
Qed.

Lemma feedback_step_nil_iff (detected reference : JointAngles) (t : Q) (k : string) :
  feedback_step detected reference t [] k = [] <->
  within_tolerance detected reference t k.
Proof.
  unfold feedback_step, within_tolerance.
  destruct (obj_get reference k) as [r|]; [|split; [discriminate|reflexivity]].
  destruct (obj_get detected k) as [d|]; [|split; [discriminate|reflexivity]].
  cbv zeta. destruct (Qgtb (Math_abs (d - r)) t) eqn:G.
  - apply Qgtb_true in G. unfold Math_abs in G. split.
    + destruct (Qgtb (d - r) 0); discriminate.
    + intros H. specialize (H r d eq_refl eq_refl). exfalso. lra.
  - apply Qgtb_false in G. unfold Math_abs in G. split; [|reflexivity].
    intros _ r' d' [= <-] [= <-]. exact G.
Qed.

Lemma feedback_step_length (detected reference : JointAngles) (t : Q) (k : string) :
  (length (feedback_step detected reference t [] k) <= 1)%nat.
Proof.
  unfold feedback_step.
  destruct (obj_get reference k) as [r|]; [|simpl; lia].
  destruct (obj_get detected k) as [d|]; [|simpl; lia].
  cbv zeta. destruct (Qgtb (Math_abs (d - r)) t); [|simpl; lia].
  destruct (Qgtb (d - r) 0); simpl; lia.
Qed.

Lemma feedback_nil_iff (detected reference : JointAngles) (t : Q) :
  generatePoseFeedback detected reference t = [] <->
  forall k, In k (Object_keys reference) -> within_tolerance detected reference t k.
Proof.
  rewrite generatePoseFeedback_flat.
  induction (Object_keys reference) as [|k ks IH]; [simpl; tauto|].
  cbn [flat_map]. split.
  - intros H. apply app_eq_nil in H as [H1 H2].
    intros k' [<-|Hk]; [now apply feedback_step_nil_iff|now apply IH].
  - intros H.
    rewrite (proj2 (feedback_step_nil_iff detected reference t k)
               (H k (or_introl eq_refl))).
    apply IH. intros k' Hk. apply H. now right.
Qed.

(** X22: there is no feedback exactly when every reference joint that was
    detected is within the tolerance, joints that were not detected being
    passed over in silence; and there is at most one line per reference
    joint. *)
Theorem generatePoseFeedback_empty_iff (detected reference : JointAngles) (t : Q) :
  (generatePoseFeedback detected reference t = [] <->
   forall k, In k (Object_keys reference) -> within_tolerance detected reference t k) /\
  (length (generatePoseFeedback detected reference t)
   <= length (Object_keys reference))%nat.
Proof.
  split; [apply feedback_nil_iff|].
  rewrite generatePoseFeedback_flat.
  induction (Object_keys reference) as [|k ks IH]; [simpl; lia|].
  cbn [flat_map length]. rewrite length_app.
  pose proof (feedback_step_length detected reference t k). lia.
Qed.

Lemma compare_fold_none (detected reference : JointAngles) (t : Q)
    (ks : list string) (m c : Q) :
  (forall k, In k ks -> obj_get detected k = None) ->
  fst (fold_left (compare_step detected reference t) ks (m, c)) = m.
Proof.
  revert m c. induction ks as [|k ks IH]; intros m c H; [reflexivity|].
  cbn [fold_left]. unfold compare_step at 2.
  rewrite (H k (or_introl eq_refl)).
  destruct (obj_get reference k); apply IH; intros k' Hk; apply H; now right.
Qed.

(** X23: when none of the reference joints was detected (an empty detection
    in particular) the score is 0 and there is no feedback at all, for
    every reference and every tolerance. *)
Theorem nothing_detected (detected reference : JointAngles) (t : Q) :
  (forall k, In k (Object_keys reference) -> obj_get detected k = None) ->
  comparePoseAngles detected reference t = 0 /\
  generatePoseFeedback detected reference t = [].
Proof.
  intros H. split.
  - unfold comparePoseAngles. cbv zeta.
    pose proof (compare_fold_none detected reference t
                  (Object_keys reference) 0 0 H) as F.
    destruct (fold_left _ (Object_keys reference) (0, 0)) as [m c].
    cbn [fst] in F. subst m. destruct (Qgtb c 0); [|reflexivity].
    transitivity (Math_round 0); [|reflexivity].
    apply Math_round_comp. unfold Qdiv. ring.
  - apply feedback_nil_iff. intros k Hk r d _ D.
    rewrite (H k Hk) in D. discriminate D.
Qed.

Lemma nothing_detected_witness :
  comparePoseAngles [] [("leftKnee", 90); ("rightKnee", 180)] 15 = 0 /\
  generatePoseFeedback [] [("leftKnee", 90); ("rightKnee", 180)] 15 = [].
Proof.
  apply (nothing_detected [] [("leftKnee", 90); ("rightKnee", 180)] 15).
  reflexivity.
Defined.

Lemma compare_fold_full (detected reference : JointAngles) (t : Q)
    (ks : list string) (m c : Q) :
  (forall k, In k ks ->
             is_Some (obj_get reference k) /\ is_Some (obj_get detected k) /\
             within_tolerance detected reference t k) ->
  fst (fold_left (compare_step detected reference t) ks (m, c))
    == m + number_of_nat (length ks) /\
  snd (fold_left (compare_step detected reference t) ks (m, c))
    == c + number_of_nat (length ks).
Proof.
  revert m c. induction ks as [|k ks IH]; intros m c H.
  - cbn [fold_left length fst snd]. change (number_of_nat 0) with 0. split; lra.
  - cbn [fold_left length]. rewrite number_of_nat_S.
    destruct (H k (or_introl eq_refl)) as ([r R] & [d D] & W).
    unfold compare_step at 2 4. rewrite R, D. cbv zeta.
    assert (L : Qle_bool (Math_abs (r - d)) t = true).
    { apply Qle_bool_iff. rewrite Math_abs_swap. now apply W. }
    rewrite L.
    destruct (IH (m + 1) (c + 1) (fun k' Hk => H k' (or_intror Hk))) as [F1 F2].
    rewrite F1, F2. split; lra.
Qed.

(** X24: silence means a perfect score only when nothing is missing: if every
    reference joint was detected and the feedback is empty, the score is
    100. *)
Theorem silent_feedback_perfect_score (detected reference : JointAngles) (t : Q) :
  reference <> [] ->
  (forall k, In k (Object_keys reference) -> is_Some (obj_get detected k)) ->
  generatePoseFeedback detected reference t = [] ->
  comparePoseAngles detected reference t = 100.
Proof.
  intros NE D F. unfold comparePoseAngles. cbv zeta.
  destruct (compare_fold_full detected reference t (Object_keys reference) 0 0)
    as [F1 F2].
  { intros k Hk. split; [|split].
    - destruct (obj_get_key reference k Hk) as [r R]. rewrite R. eauto.
    - now apply D.
    - now apply (proj1 (feedback_nil_iff detected reference t) F). }
  destruct (fold_left _ (Object_keys reference) (0, 0)) as [m c].
  cbn [fst snd] in F1, F2.
  assert (P : 0 < number_of_nat (length (Object_keys reference))).
  { destruct reference as [|e o]; [contradiction|].
    simpl. rewrite number_of_nat_S.
    assert (N := number_of_nat_nonneg (length (Object_keys o))). lra. }
  assert (G : Qgtb c 0 = true) by (apply Qgtb_true; lra).
  rewrite G. change 100 with (inject_Z 100) at 2. rewrite <- (Math_round_Z 100).
  apply Math_round_comp. rewrite F1, F2. change (inject_Z 100) with 100.
  field. lra.
Qed.

Lemma silent_feedback_perfect_score_witness :
  comparePoseAngles [("leftKnee", 90); ("rightKnee", 170)]
                    [("leftKnee", 90); ("rightKnee", 180)] 15 = 100.
Proof.
  apply (silent_feedback_perfect_score
           [("leftKnee", 90); ("rightKnee", 170)]
           [("leftKnee", 90); ("rightKnee", 180)] 15).
  - discriminate.
  - intros k [<-|[<-|[]]]; vm_compute; eauto.
  - vm_compute. reflexivity.
Defined.

Lemma Qsum_const (f : string -> Q) (v : Q) (ks : list string) :
  (forall k, In k ks -> f k == v) ->
  Qsum (map f ks) == v * number_of_nat (length ks).
Proof.
  induction ks as [|k ks IH]; intros H.
  - cbn [map length Qsum fold_right]. change (number_of_nat 0) with 0. lra.
  - cbn [map length]. rewrite number_of_nat_S.
    unfold Qsum. cbn [fold_right]. fold (Qsum (map f ks)).
    rewrite (H k (or_introl eq_refl)), IH; [lra|].
    intros k' Hk'. apply H. now right.
Qed.

(** X25: a negative tolerance is not rejected: no difference is within it, the
    partial credit of an exact match becomes 2, and a map with at least
    one joint compared with itself scores 200. *)
Theorem comparePoseAngles_negative_tolerance (a : JointAngles) (t : Q) :
  t < 0 -> a <> [] -> comparePoseAngles a a t = 200.
Proof.
  intros T NE. rewrite compare_result by (assumption || lra).
  transitivity (Math_round 200); [|reflexivity].
  apply Math_round_comp. unfold countOfReferenceJoints.
  rewrite (Qsum_const _ 2).
  - assert (P : 0 < number_of_nat (length (Object_keys a))).
    { destruct a as [|e o]; [contradiction|].
      simpl. rewrite number_of_nat_S.
      assert (N := number_of_nat_nonneg (length (Object_keys o))). lra. }
    field. lra.
  - intros k Hk. unfold jointCredit.
    destruct (obj_get_key a k Hk) as [r R]. rewrite R.
    unfold spec_credit. cbv zeta.
    assert (EA : Qabs (r - r) == 0)
      by (rewrite <- (Qabs_wd 0); [reflexivity|lra]).
    assert (L : Qle_bool (Qabs (r - r)) t = false).
    { apply not_true_iff_false. rewrite Qle_bool_iff. lra. }
    rewrite L.
    assert (E : 1 - (Qabs (r - r) - t) / t == 2) by (rewrite EA; field; lra).
    unfold Math_max. case_Qle 0 (1 - (Qabs (r - r) - t) / t); lra.
Qed.

Lemma comparePoseAngles_negative_tolerance_witness :
  comparePoseAngles [("leftKnee", 90)] [("leftKnee", 90)] (-15) = 200.
Proof.
  apply (comparePoseAngles_negative_tolerance [("leftKnee", 90)] (-15)).
  - vm_compute; congruence.
  - discriminate.
Defined.

(** ** Feedback wording and tolerance *)

Lemma spec_credit_monotone (t t' : Q) (detected : option Q) (reference : Q) :
  0 < t -> t <= t' ->
  spec_credit t detected reference <= spec_credit t' detected reference.
Proof.
  intros P L. unfold spec_credit. destruct detected as [d|]; [|lra].
  cbv zeta. set (diff := Qabs (d - reference)).
  assert (N : 0 <= diff) by apply Qabs_nonneg.
  assert (A : (diff - t) / t * t == diff - t) by (field; lra).
  assert (A' : (diff - t') / t' * t' == diff - t') by (field; lra).
  set (q := (diff - t) / t) in *. set (q' := (diff - t') / t') in *.
  unfold Math_max.
  case_Qle diff t; case_Qle diff t'; try lra.
  - case_Qle 0 (1 - q); [|lra].
    assert (0 <= q) by (apply Qnot_lt_le; intros Hq; nra). lra.
  - assert (Q' : q' <= q).
    { apply Qnot_lt_le. intros Hq.
      assert (0 < (q' - q) * t) by nra.
      assert (diff * (t' - t) >= 0) by nra. nra. }
    case_Qle 0 (1 - q); case_Qle 0 (1 - q'); lra.
Qed.

Lemma Qsum_monotone (f g : string -> Q) (ks : list string) :
  (forall k, f k <= g k) -> Qsum (map f ks) <= Qsum (map g ks).
Proof.
  intros H. induction ks as [|k ks IH]; [apply Qle_refl|].
  unfold Qsum in *. cbn [map fold_right]. specialize (H k). lra.
Qed.

Lemma Math_round_monotone (a b : Q) : a <= b -> Math_round a <= Math_round b.
Proof.
  intros H. unfold Math_round. rewrite <- Zle_Qle. apply Qfloor_resp_le. lra.
Qed.

(** X26: widening a positive tolerance never lowers the score. *)
Theorem comparePoseAngles_tolerance_monotone (detected reference : JointAngles)
    (t t' : Q) :
  0 < t -> t <= t' ->
  comparePoseAngles detected reference t <= comparePoseAngles detected reference t'.
Proof.
  intros P L. destruct reference as [|e o] eqn:R; [apply Qle_refl|].
  rewrite <- R. assert (NE : reference <> []) by (rewrite R; discriminate).
  rewrite !compare_result by (assumption || lra).
  apply Math_round_monotone. unfold countOfReferenceJoints.
  assert (C : 0 < number_of_nat (length (Object_keys reference))).
  { rewrite R. simpl. rewrite number_of_nat_S.
    assert (N := number_of_nat_nonneg (length (Object_keys o))). lra. }
  pose proof (Qsum_monotone (jointCredit detected reference t)
                (jointCredit detected reference t') (Object_keys reference)) as S.
  assert (S' : Qsum (map (jointCredit detected reference t) (Object_keys reference))
               <= Qsum (map (jointCredit detected reference t') (Object_keys reference))).
  { apply S. intros k. unfold jointCredit.
    destruct (obj_get reference k); [now apply spec_credit_monotone|lra]. }
  apply Qle_shift_div_l; [exact C|].
  set (n := number_of_nat (length (Object_keys reference))) in *.
  set (s1 := Qsum (map (jointCredit detected reference t) (Object_keys reference))) in *.
  set (s2 := Qsum (map (jointCredit detected reference t') (Object_keys reference))) in *.
  assert (E : 100 * s1 / n * n == 100 * s1) by (field; lra).
  rewrite E. lra.
Qed.

Lemma comparePoseAngles_tolerance_monotone_witness :
  comparePoseAngles [("leftKnee", 70)] [("leftKnee", 90); ("rightKnee", 180)] 15
  <= comparePoseAngles [("leftKnee", 70)] [("leftKnee", 90); ("rightKnee", 180)] 20.
Proof.
  apply (comparePoseAngles_tolerance_monotone
           [("leftKnee", 70)] [("leftKnee", 90); ("rightKnee", 180)] 15 20);
    vm_compute; congruence.
Defined.

Lemma trim_start_incl (l : list Ascii.ascii) (c : Ascii.ascii) :
  In c (trim_start l) -> In c l.
Proof.
  induction l as [|a l IH]; simpl; [tauto|].
  destruct (is_white_space a); [intros H; right; now apply IH|tauto].
Qed.

Lemma trim_start_keeps_letters (l : list Ascii.ascii) :
  (forall c, In c l -> is_white_space c = true -> c = Ascii.Space) ->
  List.filter (fun c => negb (Ascii.eqb c Ascii.Space)) (trim_start l)
  = List.filter (fun c => negb (Ascii.eqb c Ascii.Space)) l.
Proof.
  induction l as [|a l IH]; intros H; [reflexivity|]. simpl.
  destruct (is_white_space a) eqn:W; [|reflexivity].
  rewrite (H a (or_introl eq_refl) W). simpl.
  apply IH. intros c Hc. apply H. now right.
Qed.

Lemma remove_spaces_list (l : list Ascii.ascii) :
  remove_spaces (String.string_of_list_ascii l)
  = String.string_of_list_ascii
      (List.filter (fun c => negb (Ascii.eqb c Ascii.Space)) l).
Proof.
  induction l as [|a l IH]; [reflexivity|]. simpl.
  destruct (Ascii.eqb a Ascii.Space); simpl; now rewrite IH.
Qed.

Lemma space_capitals_letters (key : string) :
  no_white_space key = true ->
  List.filter (fun c => negb (Ascii.eqb c Ascii.Space))
              (String.list_ascii_of_string (space_capitals key))
  = String.list_ascii_of_string key /\
  forall c, In c (String.list_ascii_of_string (space_capitals key)) ->
            is_white_space c = true -> c = Ascii.Space.
Proof.
  induction key as [|a key IH]; intros N; [split; [reflexivity|contradiction]|].
  cbn [no_white_space] in N. apply andb_prop in N as [Na N].
  apply negb_true_iff in Na. destruct (IH N) as [IH1 IH2].
  assert (NS : Ascii.eqb a Ascii.Space = false).
  { destruct (Ascii.eqb a Ascii.Space) eqn:E; [|reflexivity].
    apply Ascii.eqb_eq in E. subst a. discriminate Na. }
  cbn [space_capitals]. destruct (is_capital a); simpl; rewrite NS; simpl.
  - split; [now rewrite IH1|].
    intros c [<-|[<-|Hc]] W; [reflexivity|congruence|now apply IH2].
  - split; [now rewrite IH1|].
    intros c [<-|Hc] W; [congruence|now apply IH2].
Qed.

(** X27: the joint name shown in a feedback line is the key with a space put
    before each capital letter: taking the spaces out again gives back
    the key (for keys without white space, as all joint keys are). *)
Theorem jointName_round_trip (key : string) :
  no_white_space key = true ->
  remove_spaces (String_trim (space_capitals key)) = key.
Proof.
  intros N. destruct (space_capitals_letters key N) as [L W].
  unfold String_trim. rewrite remove_spaces_list.
  set (chars := String.list_ascii_of_string (space_capitals key)) in *.
  rewrite List.filter_rev, trim_start_keeps_letters.
  - rewrite List.filter_rev, rev_involutive, trim_start_keeps_letters by exact W.
    rewrite L. apply String.string_of_list_ascii_of_string.
  - intros c Hc. apply in_rev in Hc. apply trim_start_incl in Hc. now apply W.
Qed.

Lemma jointName_round_trip_witness :
  remove_spaces (String_trim (space_capitals "leftElbow")) = "leftElbow".
Proof.
  apply (jointName_round_trip "leftElbow"). reflexivity.
Defined.

(** The line for a joint bent too far, as an instance. *)
Example generatePoseFeedback_lines :
  generatePoseFeedback [("leftKnee", 60); ("rightElbow", 171)]
    [("leftKnee", 90); ("rightKnee", 180); ("rightElbow", 90)] 15
  = ["left Knee: Increase angle by ~30°"; "right Elbow: Reduce angle by ~81°"].
Proof. vm_compute. reflexivity. Qed.

(** ** The frame pipeline and the export *)

Lemma map_observed_nil (l1 l2 : list Landmark) :
  map observed l1 = map observed l2 -> l1 = [] -> l2 = [].
Proof. intros E ->. now destruct l2. Qed.

Lemma filter_observed (g : string * bool * Q -> bool) (l : list Landmark) :
  map observed (List.filter (fun v => g (observed v)) l)
  = List.filter g (map observed l).
Proof.
  induction l as [|v l IH]; [reflexivity|]. simpl.
  destruct (g (observed v)); simpl; now rewrite IH.
Qed.

Lemma isPersonFullyVisible_observed (l1 l2 : list Landmark) :
  map observed l1 = map observed l2 ->
  isPersonFullyVisible l1 = isPersonFullyVisible l2.
Proof.
  intros E. unfold isPersonFullyVisible. cbv zeta. do 2 f_equal.
  pose (g := fun o : string * bool * Q =>
               includes criticalPoints (fst (fst o)) && snd (fst o)
               && Qgtb (snd o) (1 # 2)).
  assert (H : forall l,
             length (List.filter
                       (fun v => includes criticalPoints (name v) && isVisible v
                                 && Qgtb (confidence v) (1 # 2)) l)
             = length (List.filter g (map observed l))).
  { intros l. rewrite <- (filter_observed g l), length_map. reflexivity. }
  now rewrite !H, E.
Qed.

Lemma qualifies_observed (l1 l2 : list Landmark) (n : string) :
  map observed l1 = map observed l2 -> qualifies l1 n = qualifies l2 n.
Proof.
  revert l2. induction l1 as [|a l1 IH]; intros [|b l2] E; try discriminate E.
  - reflexivity.
  - unfold observed in E. cbn [map] in E. injection E as En Ev Ec Et.
    unfold qualifies, usable in *. simpl. rewrite En, Ev, Ec.
    f_equal. now apply IH.
Qed.

Lemma confidence_fold (l : list Landmark) (acc : Q) :
  fold_left (fun sum v => sum + confidence v) l acc
  = fold_left Qplus (map confidence l) acc.
Proof.
  revert acc. induction l as [|v l IH]; intros acc; [reflexivity|].
  simpl. apply IH.
Qed.

Lemma visible_confidences_observed (l1 l2 : list Landmark) :
  map observed l1 = map observed l2 ->
  map confidence (List.filter isVisible l1)
  = map confidence (List.filter isVisible l2).
Proof.
  revert l2. induction l1 as [|a l1 IH]; intros [|b l2] E; try discriminate E.
  - reflexivity.
  - unfold observed in E. cbn [map] in E. injection E as En Ev Ec Et.
    simpl. rewrite Ev. destruct (isVisible b); simpl.
    + rewrite Ec. f_equal. now apply IH.
    + now apply IH.
Qed.

Lemma calculatePoseConfidence_observed (l1 l2 : list Landmark) :
  map observed l1 = map observed l2 ->
  calculatePoseConfidence l1 = calculatePoseConfidence l2.
Proof.
  intros E. pose proof (visible_confidences_observed l1 l2 E) as V.
  unfold calculatePoseConfidence. cbv zeta.
  destruct l1 as [|a1 r1] eqn:E1, l2 as [|a2 r2] eqn:E2; try discriminate E;
    [reflexivity|].
  rewrite <- E1, <- E2 in *. clear E1 E2.
  destruct (List.filter isVisible l1) as [|v1 f1] eqn:F1,
           (List.filter isVisible l2) as [|v2 f2] eqn:F2;
    try discriminate V; [reflexivity|].
  rewrite !confidence_fold, V.
  now rewrite <- (length_map confidence (v1 :: f1)), V, length_map.
Qed.

Section PipelineFacts.

Variable Math_atan2 : Q -> Q -> Q.

Lemma keys_set_angle3_congr (o o' : JointAngles) (k : string)
    (a b c a' b' c' : option Landmark) :
  Object_keys o = Object_keys o' ->
  (is_Some a <-> is_Some a') -> (is_Some b <-> is_Some b') ->
  (is_Some c <-> is_Some c') ->
  Object_keys (set_angle3 Math_atan2 o k a b c)
  = Object_keys (set_angle3 Math_atan2 o' k a' b' c').
Proof.
  intros E A B C. unfold set_angle3.
  destruct a, a'; try (exfalso; destruct A as [A1 A2];
                        (destruct A1; eauto; discriminate)
                        || (destruct A2; eauto; discriminate));
  destruct b, b'; try (exfalso; destruct B as [B1 B2];
                        (destruct B1; eauto; discriminate)
                        || (destruct B2; eauto; discriminate));
  destruct c, c'; try (exfalso; destruct C as [C1 C2];
                        (destruct C1; eauto; discriminate)
                        || (destruct C2; eauto; discriminate));
  try exact E.
  now rewrite !Object_keys_set, E.
Qed.

Lemma keys_set_spine_congr (o o' : JointAngles)
    (a b c d a' b' c' d' : option Landmark) :
  Object_keys o = Object_keys o' ->
  (is_Some a <-> is_Some a') -> (is_Some b <-> is_Some b') ->
  (is_Some c <-> is_Some c') -> (is_Some d <-> is_Some d') ->
  Object_keys (set_spine Math_atan2 o a b c d)
  = Object_keys (set_spine Math_atan2 o' a' b' c' d').
Proof.
  intros E A B C D. unfold set_spine.
  destruct a, a'; try (exfalso; destruct A as [A1 A2];
                        (destruct A1; eauto; discriminate)
                        || (destruct A2; eauto; discriminate));
  destruct b, b'; try (exfalso; destruct B as [B1 B2];
                        (destruct B1; eauto; discriminate)
                        || (destruct B2; eauto; discriminate));
  destruct c, c'; try (exfalso; destruct C as [C1 C2];
                        (destruct C1; eauto; discriminate)
                        || (destruct C2; eauto; discriminate));
  destruct d, d'; try (exfalso; destruct D as [D1 D2];
                        (destruct D1; eauto; discriminate)
                        || (destruct D2; eauto; discriminate));
  try exact E.
  now rewrite !Object_keys_set, E.
Qed.

Lemma calculateJointAngles_keys_observed (l1 l2 : list Landmark) :
  map observed l1 = map observed l2 ->
  Object_keys (calculateJointAngles Math_atan2 l1)
  = Object_keys (calculateJointAngles Math_atan2 l2).
Proof.
  intros E.
  assert (G : forall n, is_Some (getLandmark l1 n) <-> is_Some (getLandmark l2 n)).
  { intros n. rewrite !getLandmark_qualifies.
    now rewrite (qualifies_observed l1 l2 n E). }
  unfold calculateJointAngles. cbv zeta.
  apply keys_set_spine_congr; try apply G.
  do 8 (apply keys_set_angle3_congr; try apply G).
  reflexivity.
Qed.

(** X28: smoothing moves positions only, so it never changes what the frame
    pipeline concludes about the person: the detection verdict, the pose
    confidence and the set of joints that get an angle are those of the
    raw frame, with smoothing on or off and whatever history the shared
    smoother holds. *)
Theorem createPoseData_verdicts (Date_now Math_random : Q)
    (landmarks : list Landmark) (config : PoseConfig) (m : ModuleState) :
  module_wf m -> module_coherent m ->
  let pd := fst (createPoseData Math_atan2 Date_now Math_random landmarks config m) in
  map observed (pd_landmarks pd) = map observed landmarks /\
  pd_isPersonDetected pd = isPersonFullyVisible landmarks /\
  pd_confidence pd = calculatePoseConfidence landmarks /\
  Object_keys (pd_angles pd)
  = Object_keys (calculateJointAngles Math_atan2 landmarks).
Proof.
  intros W C. unfold createPoseData.
  assert (O : map observed
                (fst (if enableSmoothing config
                      then applySmoothing landmarks config m
                      else (landmarks, m)))
              = map observed landmarks).
  { destruct (enableSmoothing config) eqn:En; [|reflexivity].
    destruct (applySmoothing_runs landmarks config m W C En)
      as (r & s & m1 & _ & _ & _ & _ & E).
    rewrite E. cbn [fst]. apply smooth_observed. }
  destruct (if enableSmoothing config then applySmoothing landmarks config m
            else (landmarks, m)) as [smoothedLandmarks m'].
  cbn [fst] in *. cbv zeta. cbn [pd_landmarks pd_isPersonDetected pd_confidence pd_angles].
  split; [exact O|]. split; [now apply isPersonFullyVisible_observed|].
  split; [now apply calculatePoseConfidence_observed|].
  now apply calculateJointAngles_keys_observed.
Qed.

(** X29: the frame number is a whole number from 0 to 999 whenever
    [Math.random()] returns a value in [0, 1): it is drawn afresh for each
    frame, not counted. *)
Theorem createPoseData_frameNumber (Date_now Math_random : Q)
    (landmarks : list Landmark) (config : PoseConfig) (m : ModuleState) :
  0 <= Math_random -> Math_random < 1 ->
  exists n : Z,
    pd_frameNumber (fst (createPoseData Math_atan2 Date_now Math_random
                           landmarks config m)) = inject_Z n /\
    (0 <= n <= 999)%Z.
Proof.
  intros R0 R1. unfold createPoseData.
  destruct (if enableSmoothing config then applySmoothing landmarks config m
            else (landmarks, m)) as [smoothedLandmarks m'].
  cbv zeta. cbn [fst pd_frameNumber]. unfold Math_floor.
  exists (Qfloor (Math_random * 1000)). split; [reflexivity|].
  assert (L := Qfloor_le (Math_random * 1000)).
  assert (U : (Qfloor 0 <= Qfloor (Math_random * 1000))%Z)
    by (apply Qfloor_resp_le; lra).
  change (Qfloor 0) with 0%Z in U.
  assert (V : inject_Z (Qfloor (Math_random * 1000)) < inject_Z 1000)
    by (change (inject_Z 1000) with 1000; lra).
  rewrite <- Zlt_Qlt in V. lia.
Qed.

End PipelineFacts.

Lemma createPoseData_verdicts_witness :
  let pd := fst (createPoseData atan2_coarse 17 (1 # 3) wrist_frame
                   {| enableSmoothing := true; smoothingFactor := 3 # 10 |}
                   running_module) in
  map observed (pd_landmarks pd) = map observed wrist_frame /\
  pd_isPersonDetected pd = isPersonFullyVisible wrist_frame /\
  pd_confidence pd = calculatePoseConfidence wrist_frame /\
  Object_keys (pd_angles pd)
  = Object_keys (calculateJointAngles atan2_coarse wrist_frame).
Proof.
  apply (createPoseData_verdicts atan2_coarse 17 (1 # 3) wrist_frame
           {| enableSmoothing := true; smoothingFactor := 3 # 10 |} running_module);
    apply running_module_coherent.
Defined.

Lemma createPoseData_frameNumber_witness :
  exists n : Z,
    pd_frameNumber (fst (createPoseData atan2_coarse 17 (1 # 3) wrist_frame
                           {| enableSmoothing := true; smoothingFactor := 3 # 10 |}
                           running_module)) = inject_Z n /\
    (0 <= n <= 999)%Z.
Proof.
  apply (createPoseData_frameNumber atan2_coarse 17 (1 # 3) wrist_frame
           {| enableSmoothing := true; smoothingFactor := 3 # 10 |} running_module);
    vm_compute; congruence.
Defined.

(** X30: the export carries everything of a frame except the visibility flags
    of the landmarks and the detection verdict: two frames are exported
    alike exactly when they agree on the session, time stamp, angles,
    frame number, confidence and, landmark by landmark, on name,
    position and confidence. *)
Theorem preparePoseDataForExport_forgets (pd1 pd2 : PoseData) (s1 s2 : string) :
  preparePoseDataForExport pd1 s1 = preparePoseDataForExport pd2 s2 <->
  s1 = s2 /\ pd_timestamp pd1 = pd_timestamp pd2 /\
  pd_angles pd1 = pd_angles pd2 /\
  pd_frameNumber pd1 = pd_frameNumber pd2 /\
  pd_confidence pd1 = pd_confidence pd2 /\
  Forall2 (fun a b => name a = name b /\ x a = x b /\ y a = y b /\
                      z a = z b /\ confidence a = confidence b)
          (pd_landmarks pd1) (pd_landmarks pd2).
Proof.
  unfold preparePoseDataForExport. split.
  - intros [= E1 E2 E3 E4 E5 E6]. repeat split; try assumption.
    revert E3. generalize (pd_landmarks pd2).
    induction (pd_landmarks pd1) as [|a l IH]; intros [|b l'] E;
      try discriminate E; constructor.
    + injection E as ? ? ? ? ? _. auto.
    + apply IH. now injection E.
  - intros (-> & -> & -> & -> & -> & F). f_equal.
    induction F as [|a b l l' (? & ? & ? & ? & ?) F IH]; [reflexivity|].
    simpl. f_equal; [|exact IH]. congruence.
Qed.
